(** * BlackRoad state synchronisation: a shallow embedding of
      [src/state/sync.py] and of [StateHasher] in [src/hashing/sha.py].

    Conventions of the embedding.
    - Python [str] is [string]; Python [int] is [Z]; Python [float] is the
      kernel's binary64 [float], so that [a > b] is [PrimFloat.ltb b a].
    - A Python [dict] is an insertion-ordered association list with unique
      keys ([Dict]): iteration order is observable in [detect_conflicts],
      [sync_from_primary] and [save_local].
    - JSON-serialisable data ([Dict[str, Any]]) is the type [json].
    - Methods of [StateManager] take the manager and return the new one
      (explicit state passing).  [print] calls are not modelled.
    - [time.time()] is an input.  An operation that reads the clock once
      takes the reading as [now]; an operation that reads it in a loop
      ([detect_conflicts] and [sync_from_primary] at every conflict they
      build, [load_local] at every record it reads) takes the readings of the
      call as [clock : nat -> float], [clock i] being reading number [i].
    - [resolve_conflict] mutates the conflict object it is given.  The
      objects of the conflict log are identified by their position in it: the
      conflicts [detect_conflicts] returns are the objects it appends to the
      log.  [resolve_conflict] is the call on an object the log does not hold
      (it takes the conflict and returns it updated); [resolve_logged] is the
      call on an object of the log, where the mutation shows in the log.
    - The two backend stubs [_fetch_from_source] and [_push_to_source] are
      replaceable ("in production, this would call the actual backend"), so
      the operations are written over an arbitrary [fetch] and [push]; the
      stubs of the source are given afterwards and plugged in. *)

From Stdlib Require Import String Ascii List ZArith NArith Bool Lia Floats Permutation.
Import ListNotations.

Local Open Scope string_scope.
Local Open Scope Z_scope.
Local Open Scope list_scope.

(* ------------------------------------------------------------------------- *)
(** ** JSON data *)

#[local] Set Warnings "-register-all".

Inductive json : Type :=
| JNull
| JBool (b : bool)
| JInt (n : Z)
| JFloat (x : float)
| JStr (s : string)
| JList (elems : list json)
| JObj (fields : list (string * json)).

(* ------------------------------------------------------------------------- *)
(** ** Python dictionaries with string keys *)

Module Dict.
Section Ops.
Context {V : Type}.

(** [d.get(k)] *)
Fixpoint get (k : string) (d : list (string * V)) : option V :=
  match d with
  | [] => None
  | (k', v) :: d' => if (k' =? k)%string then Some v else get k d'
  end.

(** [k in d] *)
Definition mem (k : string) (d : list (string * V)) : bool :=
  match get k d with Some _ => true | None => false end.

(** [d[k] = v]: an existing key keeps its position, a new key goes last. *)
Fixpoint set (k : string) (v : V) (d : list (string * V)) : list (string * V) :=
  match d with
  | [] => [(k, v)]
  | (k', v') :: d' =>
      if (k' =? k)%string then (k', v) :: d' else (k', v') :: set k v d'
  end.

(** [del d[k]].  Its only caller, [delete], tests [k in d] first, so the
    [KeyError] of a missing key cannot occur and is not modelled. *)
Fixpoint del (k : string) (d : list (string * V)) : list (string * V) :=
  match d with
  | [] => []
  | (k', v') :: d' =>
      if (k' =? k)%string then d' else (k', v') :: del k d'
  end.

(** [list(d.keys())] *)
Definition keys (d : list (string * V)) : list string := map fst d.

(** The representation invariant of a dictionary: no key occurs twice. *)
Definition wf (d : list (string * V)) : Prop := NoDup (keys d).

End Ops.
End Dict.

Definition pydict (V : Type) : Type := list (string * V).

(* ------------------------------------------------------------------------- *)
(** ** Exceptions and fallible results *)

(** The Python exceptions the modelled code can raise.  [EnumValueError] is
    the [ValueError] of a failed [Enum] lookup, kept with the value looked up
    and the name of the enumeration in place of its message, which is the
    [repr] of the value followed by [" is not a valid "] and the name.
    [OutsideModel] is not a Python exception: it marks data that Python
    would store untyped (a snapshot field of the wrong JSON kind) and that
    the typed records below cannot hold; no statement below is about it. *)
Inductive exn : Type :=
| KeyError (k : string)
| ValueError (msg : string)
| EnumValueError (value : json) (enum : string)
| TypeError (msg : string)
| AttributeError (msg : string)
| OutsideModel (what : string).

Inductive result (A : Type) : Type :=
| Ok (a : A)
| Raise (e : exn).
Arguments Ok {A} a.
Arguments Raise {A} e.

Declare Scope result_scope.
Delimit Scope result_scope with result.
Notation "x <- c1 ;; c2" :=
  (match c1 with Ok x => c2 | Raise e => Raise e end)
  (at level 61, c1 at next level, right associativity) : result_scope.

(** [data[k]] on a dictionary *)
Definition subscript {V : Type} (data : pydict V) (k : string) : result V :=
  match Dict.get k data with
  | Some v => Ok v
  | None => Raise (KeyError k)
  end.

(** [data.get(k, default)] *)
Definition get_default {V : Type} (data : pydict V) (k : string) (default : V) : V :=
  match Dict.get k data with
  | Some v => v
  | None => default
  end.

(* ------------------------------------------------------------------------- *)
(** ** Content hasher ([StateHasher], src/hashing/sha.py) *)

(** The two library calls under [SHAHasher.hash_json]:
    [json.dumps(obj, sort_keys=True, separators=(',', ':'))] and the SHA-256
    hex digest of the UTF-8 encoding ([hashlib.new("sha256")]). *)
Class Hashlib : Type := {
  json_dumps : json -> string;
  sha256_hexdigest : string -> string
}.

Definition volatile_fields : list string :=
  ["updated_at"; "last_modified"; "etag"; "_metadata"]%string.

Definition is_volatile (k : string) : bool :=
  existsb (String.eqb k) volatile_fields.

(** [sorted(obj.items())]: the keys of a dictionary are distinct, so the pairs
    are ordered by key alone. *)
Fixpoint insert_item (kv : string * json) (l : list (string * json)) : list (string * json) :=
  match l with
  | [] => [kv]
  | kv' :: l' =>
      if String.leb (fst kv) (fst kv') then kv :: l else kv' :: insert_item kv l'
  end.

Definition sorted_items (l : list (string * json)) : list (string * json) :=
  fold_right insert_item [] l.

(** [clean] of [StateHasher._normalize_state].  The comprehension cleans the
    values of the kept items of [sorted(obj.items())]; here the values are
    cleaned before sorting and filtering, which look at keys only, so that the
    recursion is structural. *)
Fixpoint clean (obj : json) : json :=
  match obj with
  | JObj fields =>
      JObj (filter (fun kv => negb (is_volatile (fst kv)))
              (sorted_items (map (fun kv => let '(k, v) := kv in (k, clean v)) fields)))
  | JList elems => JList (map clean elems)
  | _ => obj
  end.

Definition _normalize_state (state : pydict json) : json := clean (JObj state).

Definition hash_state `{Hashlib} (state : pydict json) : string :=
  sha256_hexdigest (json_dumps (_normalize_state state)).

(* ------------------------------------------------------------------------- *)
(** ** Enumerations *)

Inductive SyncSource : Type := GITHUB | CLOUDFLARE | SALESFORCE | LOCAL.

Definition SyncSource_value (s : SyncSource) : string :=
  match s with
  | GITHUB => "github"
  | CLOUDFLARE => "cloudflare"
  | SALESFORCE => "salesforce"
  | LOCAL => "local"
  end.

(** [SyncSource(v)]: lookup by value, [ValueError] on an unknown one. *)
Definition SyncSource_of_value (v : string) : result SyncSource :=
  if (v =? "github")%string then Ok GITHUB
  else if (v =? "cloudflare")%string then Ok CLOUDFLARE
  else if (v =? "salesforce")%string then Ok SALESFORCE
  else if (v =? "local")%string then Ok LOCAL
  else Raise (EnumValueError (JStr v) "SyncSource").

Inductive ConflictResolution : Type :=
| LAST_WRITE_WINS | SOURCE_PRIORITY | MANUAL | MERGE.

Definition ConflictResolution_value (r : ConflictResolution) : string :=
  match r with
  | LAST_WRITE_WINS => "last_write_wins"
  | SOURCE_PRIORITY => "source_priority"
  | MANUAL => "manual"
  | MERGE => "merge"
  end.

Definition ConflictResolution_name (r : ConflictResolution) : string :=
  match r with
  | LAST_WRITE_WINS => "LAST_WRITE_WINS"
  | SOURCE_PRIORITY => "SOURCE_PRIORITY"
  | MANUAL => "MANUAL"
  | MERGE => "MERGE"
  end.

(* ------------------------------------------------------------------------- *)
(** ** State records *)

Record SyncState : Type := mkSyncState {
  key : string;
  value : pydict json;
  hash : string;
  source : SyncSource;
  timestamp : float;
  version : Z;
  metadata : pydict json
}.

Definition to_dict (self : SyncState) : pydict json :=
  [ ("key", JStr (key self));
    ("value", JObj (value self));
    ("hash", JStr (hash self));
    ("source", JStr (SyncSource_value (source self)));
    ("timestamp", JFloat (timestamp self));
    ("version", JInt (version self));
    ("metadata", JObj (metadata self)) ]%string.

(** Reading a JSON value at the type a field of [SyncState] declares. *)
Definition as_str (j : json) : result string :=
  match j with JStr s => Ok s | _ => Raise (OutsideModel "str expected") end.
Definition as_dict (j : json) : result (pydict json) :=
  match j with JObj o => Ok o | _ => Raise (OutsideModel "dict expected") end.
Definition as_float (j : json) : result float :=
  match j with JFloat x => Ok x | _ => Raise (OutsideModel "float expected") end.
Definition as_int (j : json) : result Z :=
  match j with JInt n => Ok n | _ => Raise (OutsideModel "int expected") end.

(** [SyncState.from_dict]; [now] is the reading of [time.time()] in the
    default of [timestamp]. *)
Definition from_dict (now : float) (data : pydict json) : result SyncState :=
  (jk <- subscript data "key" ;;
   jv <- subscript data "value" ;;
   jh <- subscript data "hash" ;;
   js <- subscript data "source" ;;
   src <- match js with
          | JStr sv => SyncSource_of_value sv
          | _ => Raise (EnumValueError js "SyncSource")
          end ;;
   k <- as_str jk ;;
   v <- as_dict jv ;;
   h <- as_str jh ;;
   ts <- as_float (get_default data "timestamp" (JFloat now)) ;;
   ver <- as_int (get_default data "version" (JInt 1)) ;;
   md <- as_dict (get_default data "metadata" (JObj [])) ;;
   Ok (mkSyncState k v h src ts ver md))%result.

Record SyncConflict : Type := mkSyncConflict {
  conflict_key : string;
  local_state : SyncState;
  remote_state : SyncState;
  detected_at : float;
  resolved : bool;
  resolution : option string
}.

(** [SyncConflict(key=.., local_state=.., remote_state=..)] with its defaults *)
Definition new_conflict (k : string) (l r : SyncState) (now : float) : SyncConflict :=
  mkSyncConflict k l r now false None.

(* ------------------------------------------------------------------------- *)
(** ** The state manager *)

(** The fields of [StateManager] that the methods read or write.  [hasher] is
    the [Hashlib] instance in scope; [_backends] is created empty and never
    used. *)
Record StateManager : Type := mkStateManager {
  primary_source : SyncSource;
  conflict_resolution : ConflictResolution;
  _local_cache : pydict SyncState;
  _pending_syncs : list string;
  _conflicts : list SyncConflict
}.

(** [StateManager()] with the default arguments *)
Definition new_manager : StateManager :=
  mkStateManager CLOUDFLARE LAST_WRITE_WINS [] [] [].

Definition with_cache (m : StateManager) (c : pydict SyncState) : StateManager :=
  mkStateManager (primary_source m) (conflict_resolution m) c
    (_pending_syncs m) (_conflicts m).

Definition with_pending (m : StateManager) (p : list string) : StateManager :=
  mkStateManager (primary_source m) (conflict_resolution m) (_local_cache m)
    p (_conflicts m).

Definition with_conflicts (m : StateManager) (cs : list SyncConflict) : StateManager :=
  mkStateManager (primary_source m) (conflict_resolution m) (_local_cache m)
    (_pending_syncs m) cs.

(** What a call of [_push_to_source] can do inside the [try] of [sync_all]. *)
Inductive push_outcome : Type :=
| Pushed (success : bool)
| PushRaised (msg : string).

(** The [results] dictionary of [sync_all] *)
Record SyncResults : Type := mkSyncResults {
  synced : list string;
  failed : list string;
  conflicts : list string
}.

(** [l.remove(x)]: drops the first occurrence, [ValueError] when there is none. *)
Fixpoint list_remove (x : string) (l : list string) : result (list string) :=
  match l with
  | [] => Raise (ValueError "list.remove(x): x not in list")
  | y :: l' =>
      if (y =? x)%string then Ok l'
      else match list_remove x l' with
           | Ok r => Ok (y :: r)
           | Raise e => Raise e
           end
  end.

(** [l[i] = x] for [i] within the list *)
Fixpoint list_set {A : Type} (i : nat) (x : A) (l : list A) : list A :=
  match l, i with
  | [], _ => []
  | _ :: l', O => x :: l'
  | y :: l', S i' => y :: list_set i' x l'
  end.

(** The stubs of the source. *)
Definition _fetch_from_source (k : string) (src : SyncSource) : option SyncState :=
  None.

Definition _push_to_source (state : SyncState) (src : SyncSource) : push_outcome :=
  Pushed true.

Section Manager.
Context `{Hashlib}.
(** The backend adapter behind [_fetch_from_source] and [_push_to_source]. *)
Variable fetch : string -> SyncSource -> option SyncState.
Variable push : SyncState -> SyncSource -> push_outcome.

Definition get (m : StateManager) (k : string) : option SyncState * StateManager :=
  match Dict.get k (_local_cache m) with
  | Some state => (Some state, m)
  | None =>
      match fetch k (primary_source m) with
      | Some state => (Some state, with_cache m (Dict.set k state (_local_cache m)))
      | None => (None, m)
      end
  end.

Definition put (m : StateManager) (k : string) (v : pydict json)
    (src : option SyncSource) (now : float) : SyncState * StateManager :=
  let src := match src with Some s => s | None => LOCAL end in
  let value_hash := hash_state v in
  let existing := Dict.get k (_local_cache m) in
  let ver := match existing with Some e => version e + 1 | None => 1 end in
  let state :=
    mkSyncState k v value_hash src now ver [("updated_by", JStr "state_manager")]%string in
  let m1 := with_cache m (Dict.set k state (_local_cache m)) in
  let m2 := with_pending m1 (_pending_syncs m1 ++ [k]) in
  (state, m2).

Definition delete (m : StateManager) (k : string) : bool * StateManager :=
  if Dict.mem k (_local_cache m) then
    let m1 := with_cache m (Dict.del k (_local_cache m)) in
    (true, with_pending m1 (_pending_syncs m1 ++ [("DELETE:" ++ k)%string]))
  else (false, m).

(** *** Synchronisation *)

(** One turn of the inner loop of [sync_all], over the sources. *)
Definition push_one (k : string) (state : SyncState) (results : SyncResults)
    (src : SyncSource) : SyncResults :=
  let tag := (k ++ "@" ++ SyncSource_value src)%string in
  match push state src with
  | Pushed true =>
      mkSyncResults (synced results ++ [tag]) (failed results) (conflicts results)
  | Pushed false =>
      mkSyncResults (synced results) (failed results ++ [tag]) (conflicts results)
  | PushRaised e =>
      mkSyncResults (synced results) (failed results ++ [(tag ++ ": " ++ e)%string])
        (conflicts results)
  end.

(** The outer loop of [sync_all] over the copy [todo] of the queue. *)
Fixpoint sync_all_loop (todo : list string) (m : StateManager) (results : SyncResults)
    : result (SyncResults * StateManager) :=
  match todo with
  | [] => Ok (results, m)
  | k :: todo' =>
      match Dict.get k (_local_cache m) with
      | None => sync_all_loop todo' m results
      | Some state =>
          let results' := fold_left (push_one k state) [CLOUDFLARE; SALESFORCE] results in
          match list_remove k (_pending_syncs m) with
          | Ok p => sync_all_loop todo' (with_pending m p) results'
          | Raise e => Raise e
          end
      end
  end.

Definition sync_all (m : StateManager) : result (SyncResults * StateManager) :=
  sync_all_loop (_pending_syncs m) m (mkSyncResults [] [] []).

(** The body of the loop of [sync_from_primary], on the count, the number
    of clock readings made so far in the call, and the manager. *)
Definition sync_from_primary_step (clock : nat -> float)
    (acc : Z * nat * StateManager) (k : string) : Z * nat * StateManager :=
  let '(count, ticks, m) := acc in
  match fetch k (primary_source m) with
  | Some remote =>
      match Dict.get k (_local_cache m) with
      | Some local =>
          if negb (hash local =? hash remote)%string then
            (count, S ticks,
             with_conflicts m
               (_conflicts m ++ [new_conflict k local remote (clock ticks)]))
          else
            (count + 1, ticks, with_cache m (Dict.set k remote (_local_cache m)))
      | None =>
          (count + 1, ticks, with_cache m (Dict.set k remote (_local_cache m)))
      end
  | None => (count, ticks, m)
  end.

(** [keys or list(self._local_cache.keys())]: an empty list is falsy. *)
Definition keys_to_sync (m : StateManager) (keys : option (list string)) : list string :=
  match keys with
  | Some (k :: ks) => k :: ks
  | _ => Dict.keys (_local_cache m)
  end.

Definition sync_from_primary (m : StateManager) (keys : option (list string))
    (clock : nat -> float) : Z * StateManager :=
  let '(count, _, m') :=
    fold_left (sync_from_primary_step clock) (keys_to_sync m keys) (0, 0%nat, m) in
  (count, m').

(** The body of the loop of [detect_conflicts]; the cache is only read.  The
    clock is read once for every conflict built, so the conflict built after
    [found] carries reading number [length found]. *)
Definition detect_step (m : StateManager) (clock : nat -> float)
    (found : list SyncConflict) (item : string * SyncState) : list SyncConflict :=
  let '(k, local) := item in
  match fetch k (primary_source m) with
  | Some remote =>
      if negb (hash local =? hash remote)%string then
        if version local >=? version remote then found
        else found ++ [new_conflict k local remote (clock (length found))]
      else found
  | None => found
  end.

Definition detect_conflicts (m : StateManager) (clock : nat -> float)
    : list SyncConflict * StateManager :=
  let found := fold_left (detect_step m clock) (_local_cache m) [] in
  (found, with_conflicts m (_conflicts m ++ found)).

(** [resolve_conflict] mutates the conflict it is given and the manager; an
    exception leaves both as they are when it is raised.  The result is the
    manager, the conflict, and the winner or the exception.  This is the call
    on a conflict object that the log does not hold; [resolve_logged] below is
    the call on an object of the log. *)
Definition install_winner (m : StateManager) (c : SyncConflict)
    (r : ConflictResolution) (winner : SyncState)
    : StateManager * SyncConflict * result SyncState :=
  let c' := mkSyncConflict (conflict_key c) (local_state c) (remote_state c)
              (detected_at c) true (Some (ConflictResolution_value r)) in
  let m1 := with_cache m (Dict.set (conflict_key c) winner (_local_cache m)) in
  let m2 := with_pending m1 (_pending_syncs m1 ++ [conflict_key c]) in
  (m2, c', Ok winner).

Definition resolve_conflict (m : StateManager) (c : SyncConflict)
    (r : ConflictResolution) (merged_value : option (pydict json)) (now : float)
    : StateManager * SyncConflict * result SyncState :=
  match r with
  | LAST_WRITE_WINS =>
      if (timestamp (remote_state c) <? timestamp (local_state c))%float
      then install_winner m c r (local_state c)
      else install_winner m c r (remote_state c)
  | SOURCE_PRIORITY => install_winner m c r (remote_state c)
  | MERGE =>
      match merged_value with
      | None | Some [] =>
          (m, c, Raise (ValueError "merged_value required for MERGE resolution"))
      | Some v =>
          let '(winner, m1) := put m (conflict_key c) v None now in
          install_winner m1 c r winner
      end
  | MANUAL =>
      (m, c, Raise (ValueError ("Cannot auto-resolve with ConflictResolution."
                                  ++ ConflictResolution_name r)%string))
  end.

(** [resolve_conflict] called on the object at position [i] of the conflict
    log: the mutation of the object is the mutation of that entry.  [None]
    when the log has no such object. *)
Definition resolve_logged (m : StateManager) (i : nat)
    (r : ConflictResolution) (merged_value : option (pydict json)) (now : float)
    : option (StateManager * result SyncState) :=
  match nth_error (_conflicts m) i with
  | Some c =>
      let '(m1, c', res) := resolve_conflict m c r merged_value now in
      Some (with_conflicts m1 (list_set i c' (_conflicts m1)), res)
  | None => None
  end.

End Manager.

(* ------------------------------------------------------------------------- *)
(** ** Persistence *)

(** The snapshot is the JSON document itself: [json.dump] followed by
    [json.load] is taken to give back the same JSON data.  Paths and
    directories are not modelled: [save_local] yields the document it writes,
    [load_local] takes the document found at the path, [None] when the file
    does not exist. *)
Definition save_local (m : StateManager) (now : float) : json :=
  JObj [ ("version", JInt 1);
         ("timestamp", JFloat now);
         ("states",
           JObj (map (fun kv => let '(k, v) := kv in (k, JObj (to_dict v)))
                   (_local_cache m)));
         ("pending_syncs", JList (map JStr (_pending_syncs m))) ]%string.

(** The loop of [load_local] over [data.get("states", {}).items()], from
    record number [i] on; [from_dict] reads the clock once for every record.
    An exception leaves the entries stored so far in the cache. *)
Fixpoint load_states (clock : nat -> float) (i : nat) (items : list (string * json))
    (m : StateManager) : StateManager * result unit :=
  match items with
  | [] => (m, Ok tt)
  | (k, JObj state_dict) :: rest =>
      match from_dict (clock i) state_dict with
      | Ok st =>
          load_states clock (S i) rest (with_cache m (Dict.set k st (_local_cache m)))
      | Raise e => (m, Raise e)
      end
  | (k, _) :: rest => (m, Raise (TypeError "state record is not a mapping"))
  end.

Fixpoint as_str_list (l : list json) : result (list string) :=
  match l with
  | [] => Ok []
  | JStr s :: l' =>
      match as_str_list l' with
      | Ok r => Ok (s :: r)
      | Raise e => Raise e
      end
  | _ :: _ => Raise (OutsideModel "list of str expected")
  end.

Definition load_local (m : StateManager) (clock : nat -> float) (file : option json)
    : StateManager * result Z :=
  match file with
  | None => (m, Ok 0)
  | Some (JObj data) =>
      match get_default data "states" (JObj []) with
      | JObj states =>
          match load_states clock 0 states m with
          | (m1, Ok _) =>
              match get_default data "pending_syncs" (JList []) with
              | JList l =>
                  match as_str_list l with
                  | Ok p =>
                      let m2 := with_pending m1 p in
                      (m2, Ok (Z.of_nat (length (_local_cache m2))))
                  | Raise e => (m1, Raise e)
                  end
              | _ => (m1, Raise (OutsideModel "list of str expected"))
              end
          | (m1, Raise e) => (m1, Raise e)
          end
      | _ => (m, Raise (AttributeError "items"))
      end
  | Some _ => (m, Raise (AttributeError "get"))
  end.

(* ------------------------------------------------------------------------- *)
(** ** Kanban operations of the manager *)

(** [{**a, **b}]: the items of [a], with those of [b] stored over them in
    turn. *)
Definition dict_merge {V : Type} (a b : pydict V) : pydict V :=
  fold_left (fun d kv => Dict.set (fst kv) (snd kv) d) b a.

(** [s.split(sep)] for a one-character separator. *)
Fixpoint split_on (sep : ascii) (s : string) : list string :=
  match s with
  | EmptyString => [EmptyString]
  | String c rest =>
      if Ascii.eqb c sep then EmptyString :: split_on sep rest
      else match split_on sep rest with
           | seg :: segs => String c seg :: segs
           | [] => [String c EmptyString]
           end
  end.

(** [f"kanban:card:{card_id}"] *)
Definition card_key (card_id : string) : string := ("kanban:card:" ++ card_id)%string.

(** [state.value.get("status") == status] for a string [status] *)
Definition status_is (v : pydict json) (status : string) : bool :=
  match Dict.get "status" v with
  | Some (JStr s) => (s =? status)%string
  | _ => false
  end.

(** [{"id": key.split(":")[-1], **state.value, "_hash": state.hash}] *)
Definition card_of (k : string) (state : SyncState) : pydict json :=
  Dict.set "_hash" (JStr (hash state))
    (dict_merge [("id", JStr (last (split_on ":" k) EmptyString))]%string (value state)).

(** The body of the loop of [list_kanban_cards]. *)
Definition list_step (status : option string) (cards : list (pydict json))
    (item : string * SyncState) : list (pydict json) :=
  let '(k, state) := item in
  if String.prefix "kanban:card:" k then
    if match status with
       | None => true
       | Some st => status_is (value state) st
       end
    then cards ++ [card_of k state]
    else cards
  else cards.

Definition list_kanban_cards (m : StateManager) (status : option string)
    : list (pydict json) :=
  fold_left (list_step status) (_local_cache m) [].

Section Kanban.
Context `{Hashlib}.
Variable fetch : string -> SyncSource -> option SyncState.

Definition get_kanban_card (m : StateManager) (card_id : string)
    : option (pydict json) * StateManager :=
  let '(state, m1) := get fetch m (card_key card_id) in
  (match state with Some st => Some (value st) | None => None end, m1).

(** [existing = self.get_kanban_card(card_id) or {}] *)
Definition update_kanban_card (m : StateManager) (card_id : string)
    (updates : pydict json) (now : float) : SyncState * StateManager :=
  let '(found, m1) := get_kanban_card m card_id in
  let existing := match found with Some v => v | None => [] end in
  let merged := dict_merge existing updates in
  put m1 (card_key card_id) merged None now.

(** [changed_at] is the reading of the clock in the [updates] literal, [now]
    the later one inside [put]. *)
Definition move_kanban_card (m : StateManager) (card_id new_status : string)
    (changed_at now : float) : SyncState * StateManager :=
  update_kanban_card m card_id
    [("status", JStr new_status); ("status_changed_at", JFloat changed_at)]%string now.

End Kanban.

(* ------------------------------------------------------------------------- *)
(** ** Hashing utilities (src/hashing/sha.py) *)

(** Text and bytes are both [string] here, a text standing for its UTF-8
    encoding, so [data.encode('utf-8')] is the identity. *)

Inductive HashAlgorithm : Type :=
| SHA256 | SHA384 | SHA512 | SHA3_256 | SHA3_512 | BLAKE2B | BLAKE2S.

Definition HashAlgorithm_value (a : HashAlgorithm) : string :=
  match a with
  | SHA256 => "sha256"
  | SHA384 => "sha384"
  | SHA512 => "sha512"
  | SHA3_256 => "sha3_256"
  | SHA3_512 => "sha3_512"
  | BLAKE2B => "blake2b"
  | BLAKE2S => "blake2s"
  end.

(** The library calls of [SHAHasher]: [hashlib.new(name)] fed with the data
    and read with [hexdigest()], and [hmac.new(secret, payload, name)] read
    with [hexdigest()]. *)
Class Digests : Type := {
  hexdigest : HashAlgorithm -> string -> string;
  hmac_hexdigest : string -> string -> HashAlgorithm -> string
}.

Record HashResult : Type := mkHashResult {
  digest : string;
  algorithm : string;
  rounds : Z;
  hashed_at : float;
  hash_metadata : option (pydict json)
}.

Record SHAHasher : Type := mkSHAHasher {
  default_algorithm : HashAlgorithm
}.

(** [SHAHasher()] *)
Definition new_hasher : SHAHasher := mkSHAHasher SHA256.

(** [s.split(sep, 1)[1]] when [sep] occurs in [s]: what follows its first
    occurrence. *)
Fixpoint after_first (sep : ascii) (s : string) : option string :=
  match s with
  | EmptyString => None
  | String c rest => if Ascii.eqb c sep then Some rest else after_first sep rest
  end.

Fixpoint is_ascii (s : string) : bool :=
  match s with
  | EmptyString => true
  | String c rest => (nat_of_ascii c <? 128)%nat && is_ascii rest
  end.

(** [hmac.compare_digest] on two texts: they must be ASCII. *)
Definition compare_digest (a b : string) : result bool :=
  if is_ascii a && is_ascii b then Ok (a =? b)%string
  else Raise (TypeError "comparing strings with non-ASCII characters is not supported").

Section Hashing.
Context `{Digests}.

(** [SHAHasher.hash]; [now] is the reading of [time.time()]. *)
Definition SHAHasher_hash (self : SHAHasher) (data : string)
    (algo : option HashAlgorithm) (now : float) : HashResult :=
  let algo := match algo with Some a => a | None => default_algorithm self end in
  mkHashResult (hexdigest algo data) (HashAlgorithm_value algo) 1 now None.

Definition verify_webhook_signature (self : SHAHasher) (payload signature secret : string)
    (algo : HashAlgorithm) : result bool :=
  let signature :=
    match after_first "=" signature with
    | Some rest => rest
    | None => signature
    end in
  let expected := hmac_hexdigest secret payload algo in
  compare_digest expected signature.

Definition create_webhook_signature (self : SHAHasher) (payload secret : string)
    (algo : HashAlgorithm) (include_prefix : bool) : string :=
  let signature := hmac_hexdigest secret payload algo in
  if include_prefix then (HashAlgorithm_value algo ++ "=" ++ signature)%string
  else signature.

(** [verify_github_webhook] *)
Definition verify_github_webhook (payload signature secret : string) : result bool :=
  verify_webhook_signature new_hasher payload signature secret SHA256.

End Hashing.

(** [ContentAddressableStorage]: the hasher and the [_store] dictionary from
    digest to data. *)
Module ContentAddressableStorage.

Record t : Type := mk {
  hasher : SHAHasher;
  _store : pydict string
}.

(** [ContentAddressableStorage(hasher)], [None] for the default hasher *)
Definition new (h : option SHAHasher) : t :=
  mk (match h with Some x => x | None => new_hasher end) [].

Section Ops.
Context `{Digests}.

Definition put (self : t) (data : string) (now : float) : string * t :=
  let r := SHAHasher_hash (hasher self) data None now in
  (digest r, mk (hasher self) (Dict.set (digest r) data (_store self))).

Definition get (self : t) (hash_key : string) : option string :=
  Dict.get hash_key (_store self).

Definition exists_ (self : t) (hash_key : string) : bool :=
  Dict.mem hash_key (_store self).

Definition verify (self : t) (hash_key data : string) (now : float) : bool :=
  let r := SHAHasher_hash (hasher self) data None now in
  (digest r =? hash_key)%string.

End Ops.
End ContentAddressableStorage.

(** [StateHasher.detect_conflict]; [if base_state:] is false for [None] and
    for the empty mapping. *)
Definition detect_conflict `{Hashlib} (local_state remote_state : pydict json)
    (base_state : option (pydict json)) : pydict json :=
  let local_hash := hash_state local_state in
  let remote_hash := hash_state remote_state in
  let res :=
    [ ("has_conflict", JBool (negb (local_hash =? remote_hash)%string));
      ("local_hash", JStr local_hash);
      ("remote_hash", JStr remote_hash) ]%string in
  match base_state with
  | None | Some [] => res
  | Some base =>
      let base_hash := hash_state base in
      let r1 := Dict.set "base_hash" (JStr base_hash) res in
      let r2 := Dict.set "local_changed"
                  (JBool (negb (local_hash =? base_hash)%string)) r1 in
      Dict.set "remote_changed" (JBool (negb (remote_hash =? base_hash)%string)) r2
  end.

(* ------------------------------------------------------------------------- *)
(** * Vocabulary of the statements *)

(** ** Predicates and derived functions *)

(** A key with the local and the remote record of a conflict on it. *)
Definition pairing : Type := string * SyncState * SyncState.

Definition pairing_of (c : SyncConflict) : pairing :=
  (conflict_key c, local_state c, remote_state c).

(** The conflict built for a pairing at a clock reading. *)
Definition conflict_of (p : pairing) (t : float) : SyncConflict :=
  let '(k, l, r) := p in new_conflict k l r t.

(** The conflicts built for a list of pairings, in order, the first one at
    clock reading number [i]. *)
Fixpoint stamp (clock : nat -> float) (i : nat) (ps : list pairing) : list SyncConflict :=
  match ps with
  | [] => []
  | p :: ps' => conflict_of p (clock i) :: stamp clock (S i) ps'
  end.

(** What one cached item contributes to the list of [detect_conflicts]: the
    pairing of its conflict, when the rule finds one. *)
Definition detected (fetch : string -> SyncSource -> option SyncState)
    (m : StateManager) (item : string * SyncState) : list pairing :=
  let '(k, local) := item in
  match fetch k (primary_source m) with
  | Some remote =>
      if negb (hash local =? hash remote)%string then
        if version local >=? version remote then []
        else [(k, local, remote)]
      else []
  | None => []
  end.

(** What one target contributes to the conflicts [sync_from_primary] logs:
    the pairing of the cached and the fetched record when their hashes
    differ. *)
Definition clashes (fetch : string -> SyncSource -> option SyncState)
    (m : StateManager) (k : string) : list pairing :=
  match fetch k (primary_source m), Dict.get k (_local_cache m) with
  | Some remote, Some local =>
      if negb (hash local =? hash remote)%string then [(k, local, remote)] else []
  | _, _ => []
  end.

(** Clock readings for the examples: 5, then 6, then 7 from there on. *)
Definition sample_clock (i : nat) : float :=
  match i with
  | O => 5%float
  | S O => 6%float
  | _ => 7%float
  end.

(** The test of the loop body of [sync_from_primary], on a key: the remote
    record is stored and counted. *)
Definition pulls (fetch : string -> SyncSource -> option SyncState)
    (m : StateManager) (k : string) : bool :=
  match fetch k (primary_source m) with
  | Some remote =>
      match Dict.get k (_local_cache m) with
      | Some local => (hash local =? hash remote)%string
      | None => true
      end
  | None => false
  end.

(** The entries [sync_all] leaves in the queue: those without a cached
    record. *)
Definition unsynced (cache : pydict SyncState) (queue : list string) : list string :=
  filter (fun k => negb (Dict.mem k cache)) queue.

(** The results [sync_all] accumulates over a queue: the pushes of every
    entry that has a cached record, to the two secondary sources in turn. *)
Definition pushed (push : SyncState -> SyncSource -> push_outcome)
    (cache : pydict SyncState) (queue : list string) (results : SyncResults)
    : SyncResults :=
  fold_left
    (fun r k =>
       match Dict.get k cache with
       | Some state => fold_left (push_one push k state) [CLOUDFLARE; SALESFORCE] r
       | None => r
       end)
    queue results.

(** The states of a snapshot, as [save_local] writes them. *)
Definition saved_states (cache : pydict SyncState) : list (string * json) :=
  map (fun kv => let '(k, v) := kv in (k, JObj (to_dict v))) cache.

(** Storing the items of a dictionary one after the other, as the loop of
    [load_local] does. *)
Definition store_all (items cache : pydict SyncState) : pydict SyncState :=
  fold_left (fun d kv => Dict.set (fst kv) (snd kv) d) items cache.

(** The names the specification gives to the two [ValueError]s of
    [resolve_conflict]. *)
Definition InvalidArgument : exn :=
  ValueError "merged_value required for MERGE resolution".

Definition UnsupportedResolution : exn :=
  ValueError "Cannot auto-resolve with ConflictResolution.MANUAL".

(** A record carries the hash of its value; a cache does when all its records
    do. *)
Definition hash_ok `{Hashlib} (s : SyncState) : Prop :=
  hash s = hash_state (value s).

Definition cache_hash_ok `{Hashlib} (cache : pydict SyncState) : Prop :=
  Forall (fun kv => hash_ok (snd kv)) cache.

(** The records of a snapshot that [from_dict] accepts carry the hash of
    their value. *)
Definition states_hash_ok `{Hashlib} (now : float) (states : list (string * json)) : Prop :=
  forall k d s, In (k, JObj d) states -> from_dict now d = Ok s -> hash_ok s.

Definition file_hash_ok `{Hashlib} (now : float) (file : option json) : Prop :=
  match file with
  | Some (JObj data) =>
      match get_default data "states" (JObj []) with
      | JObj states => states_hash_ok now states
      | _ => True
      end
  | _ => True
  end.

(** The exceptions the lookups of [from_dict] raise: the [KeyError] of a
    subscript and the [ValueError] of the enumeration lookup. *)
Definition raised_by_lookup (e : exn) : Prop :=
  match e with
  | KeyError _ => True
  | EnumValueError _ enum => enum = "SyncSource"
  | _ => False
  end.

(** The version cached under a key, 0 when there is none. *)
Definition version_of (m : StateManager) (k : string) : Z :=
  match Dict.get k (_local_cache m) with
  | Some s => version s
  | None => 0
  end.

(** A run of [put] calls, each given by its key, value, source and clock
    reading. *)
Definition puts `{Hashlib} (m : StateManager)
    (calls : list (string * pydict json * option SyncSource * float)) : StateManager :=
  fold_left
    (fun m c => let '(k, v, src, now) := c in snd (put m k v src now))
    calls m.

Definition call_key (c : string * pydict json * option SyncSource * float) : string :=
  let '(k, _, _, _) := c in k.

(** The entry [sync_all] makes in its results for the push of the record
    [state], queued under [k], to the source [src]. *)
Definition push_tag (k : string) (src : SyncSource) : string :=
  (k ++ "@" ++ SyncSource_value src)%string.

Definition recorded (push : SyncState -> SyncSource -> push_outcome)
    (results : SyncResults) (k : string) (state : SyncState) (src : SyncSource) : Prop :=
  match push state src with
  | Pushed true => In (push_tag k src) (synced results)
  | Pushed false => In (push_tag k src) (failed results)
  | PushRaised e => In (push_tag k src ++ ": " ++ e)%string (failed results)
  end.

(** The queue entries that have a cached record. *)
Definition cached_entries (cache : pydict SyncState) (queue : list string) : list string :=
  filter (fun k => Dict.mem k cache) queue.

(** The character occurs in the string. *)
Fixpoint has_char (c : ascii) (s : string) : bool :=
  match s with
  | EmptyString => false
  | String c' rest => Ascii.eqb c' c || has_char c rest
  end.

(** What one cached item contributes to [list_kanban_cards]. *)
Definition listed (status : option string) (item : string * SyncState)
    : list (pydict json) :=
  list_step status [] item.

(** The record the manager knows for a key: the cached one, else the one of
    the primary source. *)
Definition known (fetch : string -> SyncSource -> option SyncState)
    (m : StateManager) (k : string) : option SyncState :=
  fst (get fetch m k).

(** The string is made of lower-case hexadecimal digits, as a [hexdigest()]
    is. *)
Definition is_hex_digit (c : ascii) : bool :=
  existsb (Ascii.eqb c)
    ["0"; "1"; "2"; "3"; "4"; "5"; "6"; "7"; "8"; "9";
     "a"; "b"; "c"; "d"; "e"; "f"]%char.

Fixpoint is_hex (s : string) : bool :=
  match s with
  | EmptyString => true
  | String c rest => is_hex_digit c && is_hex rest
  end.

(** No mapping inside the value, at any depth, has a volatile key. *)
Fixpoint no_volatile (j : json) : bool :=
  match j with
  | JObj fields =>
      forallb (fun kv => let '(k, v) := kv in negb (is_volatile k) && no_volatile v) fields
  | JList elems => forallb no_volatile elems
  | _ => true
  end.

(** The keys of a list of items are in order. *)
Inductive keys_sorted : list (string * json) -> Prop :=
| keys_sorted_nil : keys_sorted []
| keys_sorted_cons x l :
    Forall (fun y => String.leb (fst x) (fst y) = true) l ->
    keys_sorted l -> keys_sorted (x :: l).

(** ** Sample data of the examples *)

Definition sample_value : pydict json := [("status", JStr "todo")]%string.

Definition merged_sample : pydict json := [("status", JStr "merged")]%string.

Definition sample_state (k h : string) (ts : float) (ver : Z) : SyncState :=
  mkSyncState k sample_value h LOCAL ts ver [].

Definition sample_remote (k h : string) (ts : float) (ver : Z) : SyncState :=
  mkSyncState k sample_value h CLOUDFLARE ts ver [].

(** A manager whose cache holds ["a"] at version 1 with hash ["h1"]. *)
Definition sample_manager : StateManager :=
  mkStateManager CLOUDFLARE LAST_WRITE_WINS
    [("a", sample_state "a" "h1" 1%float 1)]%string [] [].

(** A backend that knows ["a"] only, at version 2 with hash ["h2"]. *)
Definition sample_fetch (k : string) (src : SyncSource) : option SyncState :=
  if (k =? "a")%string then Some (sample_remote "a" "h2" 2%float 2) else None.

(** [sample_manager] after two calls of [detect_conflicts] against
    [sample_fetch], each reading [sample_clock] from its start: the log holds
    two conflict objects with the same fields. *)
Definition logged_manager : StateManager :=
  snd (detect_conflicts sample_fetch
         (snd (detect_conflicts sample_fetch sample_manager sample_clock))
         sample_clock).

(** A backend holding exactly the record cached by [sample_manager]. *)
Definition same_fetch (k : string) (src : SyncSource) : option SyncState :=
  if (k =? "a")%string then Some (sample_state "a" "h1" 1%float 1) else None.

(** A manager ahead of its backend: ["a"] is cached at version 2, and the
    backend holds it at version 1 with another hash. *)
Definition ahead_manager : StateManager :=
  mkStateManager CLOUDFLARE LAST_WRITE_WINS
    [("a", sample_state "a" "h2" 2%float 2)]%string [] [].

Definition behind_fetch (k : string) (src : SyncSource) : option SyncState :=
  if (k =? "a")%string then Some (sample_remote "a" "h1" 1%float 1) else None.

(** A conflict on ["a"] between two records with the same timestamp. *)
Definition tie_conflict : SyncConflict :=
  new_conflict "a" (sample_state "a" "h1" 7%float 1) (sample_remote "a" "h2" 7%float 2)
    9%float.

(** A conflict on ["a"] as detected for [sample_manager], with the remote
    record at version 5. *)
Definition far_conflict : SyncConflict :=
  new_conflict "a" (sample_state "a" "h1" 1%float 1) (sample_remote "a" "h2" 2%float 5)
    9%float.

(** A snapshot with two records of the same value under two hashes. *)
Definition forged_snapshot : json :=
  JObj [ ("version", JInt 1);
         ("timestamp", JFloat 3%float);
         ("states",
           JObj [ ("a", JObj (to_dict (sample_state "a" "h1" 1%float 1)));
                  ("b", JObj (to_dict (sample_state "b" "h2" 1%float 1))) ]);
         ("pending_syncs", JList []) ]%string.

(** A snapshot whose second record lacks its ["hash"]. *)
Definition broken_snapshot : pydict json :=
  [ ("states",
      JObj (saved_states [("b", sample_state "b" "h2" 1%float 1)]
            ++ [ ("c", JObj [("key", JStr "c"); ("value", JObj [])]);
                 ("d", JObj (to_dict (sample_state "d" "h4" 1%float 1))) ]));
    ("pending_syncs", JList [JStr "b"]) ]%string.

(** A stand-in for [hashlib] and [hmac] in the examples. *)
Definition sample_digests : Digests :=
  {| hexdigest := fun _ _ => "0f"%string;
     hmac_hexdigest := fun _ _ _ => "a1b2"%string |}.

(** A stand-in for [json.dumps] and SHA-256, for the examples that have to
    name a hasher; what they show does not depend on the digest. *)
Definition sample_hashlib : Hashlib :=
  {| json_dumps := fun _ => "{}"%string; sha256_hexdigest := fun s => s |}.

(* ------------------------------------------------------------------------- *)
(** * Properties *)

(** ** Facts about dictionaries *)

Module DictFacts.
Section Facts.
Context {V : Type}.
Implicit Types (d : list (string * V)) (k : string) (v : V).

Lemma get_set_same k v d : Dict.get k (Dict.set k v d) = Some v.
Proof.
  induction d as [|[k' v'] d IH]; simpl.
  - now rewrite String.eqb_refl.
  - destruct (k' =? k)%string eqn:E; simpl; now rewrite E.
Qed.

Lemma get_set_other k k' v d : k <> k' -> Dict.get k' (Dict.set k v d) = Dict.get k' d.
Proof.
  intros Hne. induction d as [|[k0 v0] d IH]; simpl.
  - destruct (k =? k')%string eqn:E; [apply String.eqb_eq in E; contradiction | reflexivity].
  - destruct (k0 =? k)%string eqn:E; simpl.
    + apply String.eqb_eq in E; subst k0.
      destruct (k =? k')%string eqn:E'; [apply String.eqb_eq in E'; contradiction | reflexivity].
    + now rewrite IH.
Qed.

Lemma keys_set_in k v d : Dict.get k d <> None -> Dict.keys (Dict.set k v d) = Dict.keys d.
Proof.
  unfold Dict.keys. induction d as [|[k0 v0] d IH]; simpl; intros H.
  - contradiction.
  - destruct (k0 =? k)%string eqn:E; simpl; [reflexivity|].
    now rewrite IH.
Qed.

Lemma keys_set_new k v d : Dict.get k d = None -> Dict.keys (Dict.set k v d) = Dict.keys d ++ [k].
Proof.
  unfold Dict.keys. induction d as [|[k0 v0] d IH]; simpl; intros H.
  - reflexivity.
  - destruct (k0 =? k)%string eqn:E; [discriminate|]. simpl.
    now rewrite IH.
Qed.

Lemma get_None_notin k d : Dict.get k d = None <-> ~ In k (Dict.keys d).
Proof.
  induction d as [|[k0 v0] d IH]; simpl.
  - tauto.
  - destruct (k0 =? k)%string eqn:E.
    + apply String.eqb_eq in E. split; [discriminate | intros H; exfalso; auto].
    + apply String.eqb_neq in E. rewrite IH. tauto.
Qed.

Lemma get_In k v d : Dict.get k d = Some v -> In (k, v) d.
Proof.
  induction d as [|[k0 v0] d IH]; simpl; [discriminate|].
  destruct (k0 =? k)%string eqn:E.
  - apply String.eqb_eq in E. intros [= ->]. left. now subst.
  - intros H. right. auto.
Qed.

Lemma In_get k v d : Dict.wf d -> In (k, v) d -> Dict.get k d = Some v.
Proof.
  unfold Dict.wf, Dict.keys. induction d as [|[k0 v0] d IH]; simpl; [tauto|].
  intros Hnd [H|H].
  - injection H as -> ->. now rewrite String.eqb_refl.
  - inversion Hnd as [|? ? Hnotin Hnd']; subst.
    destruct (k0 =? k)%string eqn:E.
    + apply String.eqb_eq in E; subst. exfalso. apply Hnotin.
      change (In (fst (k, v)) (map fst d)). now apply in_map.
    + auto.
Qed.

Lemma wf_set k v d : Dict.wf d -> Dict.wf (Dict.set k v d).
Proof.
  unfold Dict.wf. intros Hnd. destruct (Dict.get k d) eqn:G.
  - rewrite keys_set_in; [assumption | congruence].
  - rewrite keys_set_new by assumption.
    apply NoDup_app; [assumption | repeat constructor; simpl; tauto |].
    intros x Hx [<-|[]]. now apply get_None_notin in G.
Qed.

Lemma keys_del_incl k d : incl (Dict.keys (Dict.del k d)) (Dict.keys d).
Proof.
  induction d as [|[k0 v0] d IH]; simpl; [apply incl_refl|].
  destruct (k0 =? k)%string; simpl.
  - apply incl_tl, incl_refl.
  - intros x [<-|H]; [now left | right; now apply IH].
Qed.

Lemma wf_del k d : Dict.wf d -> Dict.wf (Dict.del k d).
Proof.
  unfold Dict.wf. induction d as [|[k0 v0] d IH]; simpl; intros Hnd; [constructor|].
  inversion Hnd as [|? ? Hnotin Hnd']; subst.
  destruct (k0 =? k)%string; simpl; [assumption|].
  constructor; [|now apply IH].
  intros H. apply Hnotin. now apply (keys_del_incl k d).
Qed.

Lemma get_del_same k d : Dict.wf d -> Dict.get k (Dict.del k d) = None.
Proof.
  unfold Dict.wf. induction d as [|[k0 v0] d IH]; simpl; intros Hnd; [reflexivity|].
  inversion Hnd as [|? ? Hnotin Hnd']; subst.
  destruct (k0 =? k)%string eqn:E; simpl.
  - apply String.eqb_eq in E; subst. now apply get_None_notin.
  - rewrite E. auto.
Qed.

Lemma get_del_other k k' d : k <> k' -> Dict.get k' (Dict.del k d) = Dict.get k' d.
Proof.
  intros Hne. induction d as [|[k0 v0] d IH]; simpl; [reflexivity|].
  destruct (k0 =? k)%string eqn:E; simpl.
  - apply String.eqb_eq in E; subst k0.
    destruct (k =? k')%string eqn:E'; [apply String.eqb_eq in E'; contradiction | reflexivity].
  - now rewrite IH.
Qed.

(** Storing again what is stored changes nothing. *)
Lemma set_same k v d : Dict.get k d = Some v -> Dict.set k v d = d.
Proof.
  induction d as [|[k0 v0] d IH]; simpl; [discriminate|].
  destruct (k0 =? k)%string eqn:E.
  - now intros [= ->].
  - intros H. now rewrite IH.
Qed.

End Facts.
End DictFacts.

(** ** Records of the manager *)

Lemma with_conflicts_same m : with_conflicts m (_conflicts m) = m.
Proof. now destruct m. Qed.

Lemma with_cache_same m : with_cache m (_local_cache m) = m.
Proof. now destruct m. Qed.

Lemma with_pending_same m : with_pending m (_pending_syncs m) = m.
Proof. now destruct m. Qed.

(** ** The content hasher on examples *)

Example clean_sorts_and_strips :
  clean (JObj [ ("b", JInt 1); ("etag", JStr "x");
                ("a", JList [JObj [("updated_at", JInt 3); ("z", JNull)]]) ]%string)
  = JObj [ ("a", JList [JObj [("z", JNull)]]); ("b", JInt 1) ]%string.
Proof. reflexivity. Qed.

Example hash_state_ignores_order `{Hashlib} (x y : json) :
  hash_state [("a", x); ("b", y)]%string = hash_state [("b", y); ("a", x)]%string.
Proof. reflexivity. Qed.

(** ** The cache keeps distinct keys *)

Lemma new_manager_wf : Dict.wf (_local_cache new_manager).
Proof. constructor. Qed.

Lemma put_wf `{Hashlib} m k v src now :
  Dict.wf (_local_cache m) -> Dict.wf (_local_cache (snd (put m k v src now))).
Proof. intros Hwf. simpl. now apply DictFacts.wf_set. Qed.

Lemma delete_wf m k :
  Dict.wf (_local_cache m) -> Dict.wf (_local_cache (snd (delete m k))).
Proof.
  intros Hwf. unfold delete. destruct (Dict.mem k (_local_cache m)); simpl.
  - now apply DictFacts.wf_del.
  - assumption.
Qed.

Lemma get_wf fetch m k :
  Dict.wf (_local_cache m) -> Dict.wf (_local_cache (snd (get fetch m k))).
Proof.
  intros Hwf. unfold get. destruct (Dict.get k (_local_cache m)); [assumption|].
  destruct (fetch k (primary_source m)); simpl; [now apply DictFacts.wf_set | assumption].
Qed.

Lemma resolve_conflict_wf `{Hashlib} m c r merged_value now :
  Dict.wf (_local_cache m) ->
  Dict.wf (_local_cache (fst (fst (resolve_conflict m c r merged_value now)))).
Proof.
  intros Hwf. unfold resolve_conflict, install_winner.
  destruct r; simpl; try assumption.
  - destruct (_ <? _)%float; simpl; now apply DictFacts.wf_set.
  - now apply DictFacts.wf_set.
  - destruct merged_value as [[|kv v]|]; simpl; try assumption.
    now apply DictFacts.wf_set, DictFacts.wf_set.
Qed.

(** The result of [sync_from_primary] in terms of its loop. *)
Lemma sync_from_primary_loop fetch m keys clock :
  sync_from_primary fetch m keys clock
  = (fst (fst (fold_left (sync_from_primary_step fetch clock) (keys_to_sync m keys)
                 (0, 0%nat, m))),
     snd (fold_left (sync_from_primary_step fetch clock) (keys_to_sync m keys)
            (0, 0%nat, m))).
Proof.
  unfold sync_from_primary.
  now destruct (fold_left (sync_from_primary_step fetch clock) (keys_to_sync m keys)
                  (0, 0%nat, m)) as [[c t] m'].
Qed.

(** A property of the cache that storing a fetched record keeps is kept by
    the loop of [sync_from_primary]. *)
Lemma pull_loop_cache fetch clock (P : pydict SyncState -> Prop) ks acc :
  (forall d k src remote, fetch k src = Some remote -> P d -> P (Dict.set k remote d)) ->
  P (_local_cache (snd acc)) ->
  P (_local_cache (snd (fold_left (sync_from_primary_step fetch clock) ks acc))).
Proof.
  intros Hset. revert acc. induction ks as [|k ks IH]; intros [[n t] m] HP; [assumption|].
  cbn [fold_left]. apply IH. unfold sync_from_primary_step. cbn [snd] in HP.
  destruct (fetch k (primary_source m)) as [remote|] eqn:F; [|assumption].
  destruct (Dict.get k (_local_cache m)).
  - destruct (negb _); cbn [snd]; [assumption|]. simpl. now apply (Hset _ _ _ _ F).
  - simpl. now apply (Hset _ _ _ _ F).
Qed.

Lemma sync_from_primary_wf fetch m keys clock :
  Dict.wf (_local_cache m) ->
  Dict.wf (_local_cache (snd (sync_from_primary fetch m keys clock))).
Proof.
  intros Hwf. rewrite sync_from_primary_loop. cbn [snd].
  apply pull_loop_cache; [|assumption].
  intros d k src remote _. apply DictFacts.wf_set.
Qed.

Lemma load_states_wf clock i states m :
  Dict.wf (_local_cache m) ->
  Dict.wf (_local_cache (fst (load_states clock i states m))).
Proof.
  revert i m. induction states as [|[k j] states IH]; intros i m Hwf; [assumption|].
  simpl. destruct j; try assumption.
  destruct (from_dict (clock i) fields); [|assumption].
  apply IH. simpl. now apply DictFacts.wf_set.
Qed.

Lemma load_local_wf m clock file :
  Dict.wf (_local_cache m) -> Dict.wf (_local_cache (fst (load_local m clock file))).
Proof.
  intros Hwf. unfold load_local.
  destruct file as [[]|]; try assumption.
  destruct (get_default fields "states" (JObj [])); try assumption.
  pose proof (load_states_wf clock 0 fields0 m Hwf) as Hl.
  destruct (load_states clock 0 fields0 m) as [m1 [[]|e]]; simpl in *; [|assumption].
  destruct (get_default fields "pending_syncs" (JList [])); try assumption.
  destruct (as_str_list elems); assumption.
Qed.

(** ** Conflict detection *)

Lemma stamp_app clock i (a b : list pairing) :
  stamp clock i (a ++ b) = stamp clock i a ++ stamp clock (i + length a) b.
Proof.
  revert i. induction a as [|p a IH]; intros i; simpl.
  - now rewrite Nat.add_0_r.
  - rewrite IH. now rewrite Nat.add_succ_r.
Qed.

Lemma stamp_length clock i (ps : list pairing) : length (stamp clock i ps) = length ps.
Proof. revert i. induction ps as [|p ps IH]; intros i; simpl; [reflexivity | now rewrite IH]. Qed.

Lemma stamp_pairings clock i (ps : list pairing) : map pairing_of (stamp clock i ps) = ps.
Proof.
  revert i. induction ps as [|[[k l] r] ps IH]; intros i; simpl; [reflexivity|].
  now rewrite IH.
Qed.

(** The conflict at a position of a stamped list. *)
Lemma stamp_nth clock i (ps : list pairing) (j : nat) :
  nth_error (stamp clock i ps) j
  = match nth_error ps j with
    | Some p => Some (conflict_of p (clock (i + j)%nat))
    | None => None
    end.
Proof.
  revert i j. induction ps as [|p ps IH]; intros i [|j]; simpl; try reflexivity.
  - now rewrite Nat.add_0_r.
  - rewrite IH. now rewrite Nat.add_succ_r.
Qed.

Lemma stamp_In clock i (ps : list pairing) (c : SyncConflict) :
  In c (stamp clock i ps)
  <-> exists j p, nth_error ps j = Some p /\ c = conflict_of p (clock (i + j)%nat).
Proof.
  split.
  - intros Hin. apply In_nth_error in Hin. destruct Hin as [j Hj].
    rewrite stamp_nth in Hj. destruct (nth_error ps j) as [p|] eqn:E; [|discriminate].
    injection Hj as <-. now exists j, p.
  - intros (j & p & Hj & ->). apply (nth_error_In _ j). now rewrite stamp_nth, Hj.
Qed.

Section Detection.
Variable fetch : string -> SyncSource -> option SyncState.

Lemma detect_step_app m clock found item :
  detect_step fetch m clock found item
  = found ++ stamp clock (length found) (detected fetch m item).
Proof.
  unfold detected, detect_step. destruct item as [k local].
  destruct (fetch k (primary_source m)) as [remote|]; [|now rewrite app_nil_r].
  destruct (negb (hash local =? hash remote)%string); [|now rewrite app_nil_r].
  destruct (version local >=? version remote); [now rewrite app_nil_r | reflexivity].
Qed.

Lemma detect_fold m clock items found :
  fold_left (detect_step fetch m clock) items found
  = found ++ stamp clock (length found) (flat_map (detected fetch m) items).
Proof.
  revert found. induction items as [|item items IH]; intros found; cbn [fold_left flat_map].
  - simpl. now rewrite app_nil_r.
  - rewrite IH, detect_step_app, stamp_app, length_app, stamp_length.
    now rewrite app_assoc.
Qed.

(** The list [detect_conflicts] returns: the pairings the rule finds over
    the cache, stamped with the readings of the clock in turn. *)
Lemma detect_found m clock :
  fst (detect_conflicts fetch m clock)
  = stamp clock 0 (flat_map (detected fetch m) (_local_cache m)).
Proof. unfold detect_conflicts. cbn [fst]. now rewrite detect_fold. Qed.

(** The pairing of one item, when there is one. *)
Lemma detected_spec m k local (p : pairing) :
  In p (detected fetch m (k, local)) <->
  exists remote,
    fetch k (primary_source m) = Some remote /\
    hash local <> hash remote /\
    version local < version remote /\
    p = (k, local, remote).
Proof.
  unfold detected.
  destruct (fetch k (primary_source m)) as [remote|].
  - destruct (hash local =? hash remote)%string eqn:E; simpl.
    + apply String.eqb_eq in E. split; [tauto|].
      intros (r & [= <-] & Hne & _). contradiction.
    + apply String.eqb_neq in E.
      destruct (version local >=? version remote) eqn:V; simpl.
      * apply Z.geb_le in V. split; [tauto|].
        intros (r & [= <-] & _ & Hlt & _). lia.
      * assert (version local < version remote).
        { destruct (Z.geb_spec (version local) (version remote)); [discriminate | lia]. }
        split.
        -- intros [<-|[]]. now exists remote.
        -- intros (r & [= <-] & _ & _ & ->). now left.
  - split; [intros [] | intros (r & Hr & _); discriminate].
Qed.

(** A conflict is returned exactly for the pairings the rule finds. *)
Lemma detect_found_In m clock (c : SyncConflict) :
  In c (fst (detect_conflicts fetch m clock)) ->
  exists k local remote t,
    c = new_conflict k local remote t
    /\ In (k, local) (_local_cache m)
    /\ fetch k (primary_source m) = Some remote
    /\ hash local <> hash remote
    /\ version local < version remote.
Proof.
  rewrite detect_found. intros Hin. apply stamp_In in Hin.
  destruct Hin as (j & p & Hj & ->). apply nth_error_In in Hj.
  apply in_flat_map in Hj. destruct Hj as ([k local] & Hitem & Hp).
  apply detected_spec in Hp. destruct Hp as (remote & Hf & Hh & Hv & ->).
  now exists k, local, remote, (clock (0 + j)%nat).
Qed.

Lemma detect_found_pairing m clock k local remote :
  In (k, local) (_local_cache m) ->
  fetch k (primary_source m) = Some remote ->
  hash local <> hash remote ->
  version local < version remote ->
  exists i, (i < length (fst (detect_conflicts fetch m clock)))%nat
            /\ In (new_conflict k local remote (clock i))
                  (fst (detect_conflicts fetch m clock)).
Proof.
  intros Hitem Hf Hh Hv. rewrite detect_found, stamp_length.
  assert (Hp : In (k, local, remote) (flat_map (detected fetch m) (_local_cache m))).
  { apply in_flat_map. exists (k, local). split; [assumption|].
    apply detected_spec. now exists remote. }
  apply In_nth_error in Hp. destruct Hp as [j Hj].
  exists j. split.
  - apply nth_error_Some. unfold pairing in *. rewrite Hj. discriminate.
  - apply stamp_In. now exists j, (k, local, remote).
Qed.

End Detection.

(** C1: for a key of the local cache, [detect_conflicts] lists a conflict for
    the key if and only if the primary source returns a remote record, the two
    hashes differ and the local version is strictly below the remote one.  The
    conflict is the one built from the cached and the fetched record, at one
    of the clock readings of the call; no conflict is listed when the local
    version is at least the remote one, nor when the remote record is absent.
    The conflicts found are appended to the log and the cache is left as it
    is. *)
Theorem detect_conflicts_classification
    (fetch : string -> SyncSource -> option SyncState)
    (m : StateManager) (clock : nat -> float) (k : string) (local : SyncState) :
  Dict.wf (_local_cache m) ->
  Dict.get k (_local_cache m) = Some local ->
  let found := fst (detect_conflicts fetch m clock) in
  let m' := snd (detect_conflicts fetch m clock) in
  let flagged := exists c, In c found /\ conflict_key c = k in
  (flagged <->
     exists remote,
       fetch k (primary_source m) = Some remote /\
       hash local <> hash remote /\
       version local < version remote)
  /\ (forall remote,
        fetch k (primary_source m) = Some remote ->
        hash local <> hash remote ->
        version local < version remote ->
        exists i, (i < length found)%nat
                  /\ In (new_conflict k local remote (clock i)) found)
  /\ (forall remote,
        fetch k (primary_source m) = Some remote ->
        version local >= version remote -> ~ flagged)
  /\ (fetch k (primary_source m) = None -> ~ flagged)
  /\ _conflicts m' = _conflicts m ++ found
  /\ _local_cache m' = _local_cache m.
Proof.
  intros Hwf Hget found m' flagged.
  assert (Hiff : flagged <->
     exists remote,
       fetch k (primary_source m) = Some remote /\
       hash local <> hash remote /\
       version local < version remote).
  { unfold flagged, found. split.
    - intros (c & Hin & Hk). apply detect_found_In in Hin.
      destruct Hin as (k' & l' & remote & t & -> & Hitem & Hf & Hh & Hv).
      simpl in Hk. subst k'.
      apply (DictFacts.In_get _ _ _ Hwf) in Hitem.
      rewrite Hget in Hitem. injection Hitem as <-.
      now exists remote.
    - intros (remote & Hf & Hh & Hv).
      destruct (detect_found_pairing fetch m clock k local remote) as (i & _ & Hi);
        try assumption; [now apply DictFacts.get_In|].
      now exists (new_conflict k local remote (clock i)). }
  split; [exact Hiff|]. split; [|split; [|split; [|split]]].
  - intros remote Hf Hh Hv. apply detect_found_pairing; try assumption.
    now apply DictFacts.get_In.
  - intros remote Hf Hge Hfl. apply Hiff in Hfl.
    destruct Hfl as (r & Hr & _ & Hlt). rewrite Hf in Hr. injection Hr as <-. lia.
  - intros Hf Hfl. apply Hiff in Hfl.
    destruct Hfl as (r & Hr & _). rewrite Hf in Hr. discriminate.
  - reflexivity.
  - reflexivity.
Qed.

Lemma sample_manager_wf : Dict.wf (_local_cache sample_manager).
Proof.
  unfold Dict.wf. simpl. constructor; [simpl; tauto | constructor].
Defined.

(** The theorem at [sample_manager] against [sample_fetch]: version 1 against
    version 2 with different hashes is listed. *)
Lemma detect_conflicts_classification_witness :
  exists i,
    (i < length (fst (detect_conflicts sample_fetch sample_manager sample_clock)))%nat
    /\ In (new_conflict "a" (sample_state "a" "h1" 1%float 1)
             (sample_remote "a" "h2" 2%float 2) (sample_clock i))
          (fst (detect_conflicts sample_fetch sample_manager sample_clock)).
Proof.
  apply (detect_conflicts_classification sample_fetch sample_manager sample_clock "a"
           (sample_state "a" "h1" 1%float 1) sample_manager_wf eq_refl).
  - reflexivity.
  - simpl. discriminate.
  - simpl. lia.
Defined.

(** C10: the fetch stub of the source returns nothing for every key and every
    source; with it [detect_conflicts] returns the empty list and leaves the
    manager, hence the conflict log, as it was, and [sync_from_primary]
    returns 0 and leaves the manager, hence the cache, as it was. *)
Theorem fetch_stub_inert (m : StateManager) (keys : option (list string))
    (clock : nat -> float) :
  (forall k src, _fetch_from_source k src = None)
  /\ detect_conflicts _fetch_from_source m clock = ([], m)
  /\ sync_from_primary _fetch_from_source m keys clock = (0, m).
Proof.
  split; [reflexivity|]. split.
  - unfold detect_conflicts.
    assert (E : forall items found,
               fold_left (detect_step _fetch_from_source m clock) items found = found).
    { induction items as [|[k l] items IH]; intros found; simpl; [reflexivity|].
      apply IH. }
    rewrite E, app_nil_r. now rewrite with_conflicts_same.
  - unfold sync_from_primary.
    assert (E : forall ks acc,
               fold_left (sync_from_primary_step _fetch_from_source clock) ks acc = acc).
    { induction ks as [|k ks IH]; intros [[n t] m0]; simpl; [reflexivity | apply IH]. }
    now rewrite E.
Qed.

(** ** Pull from the primary source *)

Section Pull.
Variable fetch : string -> SyncSource -> option SyncState.
Variable clock : nat -> float.

Lemma In_existsb (k : string) (ks : list string) :
  In k ks -> existsb (String.eqb k) ks = true.
Proof.
  intros Hin. apply existsb_exists. exists k. split; [assumption | apply String.eqb_refl].
Qed.

Lemma not_In_existsb (k : string) (ks : list string) :
  ~ In k ks -> existsb (String.eqb k) ks = false.
Proof.
  intros Hnotin. destruct (existsb (String.eqb k) ks) eqn:E; [|reflexivity].
  apply existsb_exists in E. destruct E as (k' & Hin & Heq).
  apply String.eqb_eq in Heq. subst k'. contradiction.
Qed.

(** *** One turn of the loop *)

Lemma step_count n t m k :
  fst (fst (sync_from_primary_step fetch clock (n, t, m) k))
  = n + (if pulls fetch m k then 1 else 0).
Proof.
  unfold pulls, sync_from_primary_step.
  destruct (fetch k (primary_source m)); [|simpl; lia].
  destruct (Dict.get k (_local_cache m)); [|reflexivity].
  destruct (hash _ =? hash _)%string; simpl; [reflexivity | lia].
Qed.

Lemma step_ticks n t m k :
  snd (fst (sync_from_primary_step fetch clock (n, t, m) k))
  = (t + length (clashes fetch m k))%nat.
Proof.
  unfold clashes, sync_from_primary_step.
  destruct (fetch k (primary_source m)); [|simpl; lia].
  destruct (Dict.get k (_local_cache m)); [|simpl; lia].
  destruct (hash _ =? hash _)%string; simpl; lia.
Qed.

Lemma step_conflicts n t m k :
  _conflicts (snd (sync_from_primary_step fetch clock (n, t, m) k))
  = _conflicts m ++ stamp clock t (clashes fetch m k).
Proof.
  unfold clashes, sync_from_primary_step.
  destruct (fetch k (primary_source m)); [|simpl; now rewrite app_nil_r].
  destruct (Dict.get k (_local_cache m)); [|simpl; now rewrite app_nil_r].
  destruct (hash _ =? hash _)%string; simpl; [now rewrite app_nil_r | reflexivity].
Qed.

Lemma step_primary n t m k :
  primary_source (snd (sync_from_primary_step fetch clock (n, t, m) k)) = primary_source m.
Proof.
  unfold sync_from_primary_step.
  destruct (fetch k (primary_source m)); [|reflexivity].
  destruct (Dict.get k (_local_cache m)); [|reflexivity].
  now destruct (negb _).
Qed.

Lemma step_pending n t m k :
  _pending_syncs (snd (sync_from_primary_step fetch clock (n, t, m) k)) = _pending_syncs m.
Proof.
  unfold sync_from_primary_step.
  destruct (fetch k (primary_source m)); [|reflexivity].
  destruct (Dict.get k (_local_cache m)); [|reflexivity].
  now destruct (negb _).
Qed.

Lemma step_get n t m k k' :
  Dict.get k' (_local_cache (snd (sync_from_primary_step fetch clock (n, t, m) k)))
  = if (k' =? k)%string && pulls fetch m k' then fetch k' (primary_source m)
    else Dict.get k' (_local_cache m).
Proof.
  destruct (String.eqb_spec k' k) as [->|Hne]; cbn [andb].
  - unfold pulls, sync_from_primary_step.
    destruct (fetch k (primary_source m)) as [remote|]; [|reflexivity].
    destruct (Dict.get k (_local_cache m)) as [local|] eqn:G.
    + destruct (hash local =? hash remote)%string; simpl.
      * apply DictFacts.get_set_same.
      * assumption.
    + simpl. apply DictFacts.get_set_same.
  - unfold sync_from_primary_step.
    destruct (fetch k (primary_source m)) as [remote|]; [|reflexivity].
    destruct (Dict.get k (_local_cache m)) as [local|].
    + destruct (negb _); simpl; [reflexivity|].
      apply DictFacts.get_set_other. congruence.
    + simpl. apply DictFacts.get_set_other. congruence.
Qed.

(** What the loop does with a key is the same before and after a turn: a
    stored record is the fetched one, whose hash is its own. *)
Lemma step_pulls n t m k k' :
  pulls fetch (snd (sync_from_primary_step fetch clock (n, t, m) k)) k' = pulls fetch m k'.
Proof.
  unfold pulls at 1. rewrite step_primary, step_get.
  destruct ((k' =? k)%string && pulls fetch m k') eqn:E; [|reflexivity].
  apply andb_prop in E. destruct E as [_ E]. rewrite E.
  unfold pulls in E. destruct (fetch k' (primary_source m)) as [remote|]; [|discriminate].
  apply String.eqb_refl.
Qed.

Lemma step_clashes n t m k k' :
  clashes fetch (snd (sync_from_primary_step fetch clock (n, t, m) k)) k'
  = clashes fetch m k'.
Proof.
  unfold clashes at 1. rewrite step_primary, step_get.
  destruct ((k' =? k)%string && pulls fetch m k') eqn:E; [|reflexivity].
  apply andb_prop in E. destruct E as [_ E].
  unfold pulls in E. unfold clashes.
  destruct (fetch k' (primary_source m)) as [remote|]; [|discriminate].
  rewrite String.eqb_refl. cbn [negb].
  destruct (Dict.get k' (_local_cache m)) as [local|]; [|reflexivity].
  now rewrite E.
Qed.

(** *** The whole loop, on any list of targets *)

Lemma fold_pull ks n t m :
  let r := fold_left (sync_from_primary_step fetch clock) ks (n, t, m) in
  fst (fst r) = n + Z.of_nat (length (filter (pulls fetch m) ks))
  /\ _conflicts (snd r) = _conflicts m ++ stamp clock t (flat_map (clashes fetch m) ks)
  /\ primary_source (snd r) = primary_source m
  /\ _pending_syncs (snd r) = _pending_syncs m
  /\ forall k,
       Dict.get k (_local_cache (snd r))
       = if existsb (String.eqb k) ks && pulls fetch m k then fetch k (primary_source m)
         else Dict.get k (_local_cache m).
Proof.
  revert n t m. induction ks as [|k0 ks IH]; intros n t m; cbn [fold_left]; cbv zeta.
  - simpl. rewrite app_nil_r. repeat split. lia.
  - pose proof (step_count n t m k0) as Hn.
    pose proof (step_ticks n t m k0) as Ht.
    pose proof (step_conflicts n t m k0) as Hc.
    pose proof (step_primary n t m k0) as Hp.
    pose proof (step_pending n t m k0) as Hq.
    pose proof (step_get n t m k0) as Hg.
    pose proof (step_pulls n t m k0) as Hpulls.
    pose proof (step_clashes n t m k0) as Hclashes.
    destruct (sync_from_primary_step fetch clock (n, t, m) k0) as [[n1 t1] m1].
    cbn [fst snd] in *.
    destruct (IH n1 t1 m1) as (In1 & Ic & Ip & Iq & Ig).
    assert (Ef : filter (pulls fetch m1) ks = filter (pulls fetch m) ks).
    { apply filter_ext. intros k. apply Hpulls. }
    assert (Em : flat_map (clashes fetch m1) ks = flat_map (clashes fetch m) ks).
    { apply flat_map_ext. intros k. apply Hclashes. }
    rewrite Ef in In1. rewrite Em in Ic.
    split; [|split; [|split; [|split]]].
    + rewrite In1, Hn. cbn [filter].
      destruct (pulls fetch m k0); cbn [length]; lia.
    + rewrite Ic, Hc, Ht. cbn [flat_map]. rewrite stamp_app.
      now rewrite app_assoc.
    + now rewrite Ip.
    + now rewrite Iq.
    + intros k. rewrite Ig, Hpulls, Hp, Hg. cbn [existsb].
      destruct (String.eqb k k0), (existsb (String.eqb k) ks), (pulls fetch m k);
        reflexivity.
Qed.

(** [sync_from_primary] in terms of the two tests on the manager it is
    given. *)
Lemma sync_from_primary_spec m keys :
  let ks := keys_to_sync m keys in
  let r := sync_from_primary fetch m keys clock in
  fst r = Z.of_nat (length (filter (pulls fetch m) ks))
  /\ _conflicts (snd r) = _conflicts m ++ stamp clock 0 (flat_map (clashes fetch m) ks)
  /\ primary_source (snd r) = primary_source m
  /\ _pending_syncs (snd r) = _pending_syncs m
  /\ forall k,
       Dict.get k (_local_cache (snd r))
       = if existsb (String.eqb k) ks && pulls fetch m k then fetch k (primary_source m)
         else Dict.get k (_local_cache m).
Proof.
  cbv zeta. rewrite sync_from_primary_loop. cbn [fst snd].
  destruct (fold_pull (keys_to_sync m keys) 0 0%nat m) as (Hn & Hrest).
  split; [|exact Hrest]. rewrite Hn. lia.
Qed.

End Pull.

(** C2 (amended): [sync_from_primary] decides by the hashes alone, whatever
    the versions, and on any list of targets, repeated or not.  It returns
    the number of targets, each occurrence counted, for which the primary
    source returns a record while the key has no local record or a local
    record with the same hash; the conflicts it appends to the log are those
    of the targets, in order, whose local and fetched hashes differ, stamped
    with the clock readings of the call in turn.  For a target with a fetched
    record: without a local record, or with equal hashes, the fetched record
    is stored under the key; with different hashes, whether the local version
    is below, equal to or above the remote one, the local record stays, the
    key is not counted and a conflict of the two records is in the log.  A key
    that is not a target, or for which nothing is fetched, keeps its cache
    entry. *)
Theorem sync_from_primary_rule
    (fetch : string -> SyncSource -> option SyncState)
    (m : StateManager) (keys : option (list string)) (clock : nat -> float) :
  let ks := keys_to_sync m keys in
  let n := fst (sync_from_primary fetch m keys clock) in
  let m' := snd (sync_from_primary fetch m keys clock) in
  n = Z.of_nat (length (filter (pulls fetch m) ks))
  /\ _conflicts m' = _conflicts m ++ stamp clock 0 (flat_map (clashes fetch m) ks)
  /\ (forall k remote,
       In k ks ->
       fetch k (primary_source m) = Some remote ->
       match Dict.get k (_local_cache m) with
       | None =>
           pulls fetch m k = true /\ Dict.get k (_local_cache m') = Some remote
       | Some local =>
           (hash local = hash remote ->
              pulls fetch m k = true /\ Dict.get k (_local_cache m') = Some remote)
           /\ (hash local <> hash remote ->
                 pulls fetch m k = false
                 /\ Dict.get k (_local_cache m') = Some local
                 /\ exists i, In (new_conflict k local remote (clock i)) (_conflicts m'))
       end)
  /\ (forall k,
        ~ In k ks \/ fetch k (primary_source m) = None ->
        Dict.get k (_local_cache m') = Dict.get k (_local_cache m)).
Proof.
  intros ks n m'.
  destruct (sync_from_primary_spec fetch clock m keys) as (Hn & Hc & _ & _ & Hg).
  fold ks n m' in Hn, Hc, Hg.
  split; [exact Hn|]. split; [exact Hc|]. split.
  - intros k remote Hin Hf. specialize (Hg k).
    rewrite (In_existsb k ks Hin) in Hg. cbn [andb] in Hg.
    assert (Hcl : forall local, Dict.get k (_local_cache m) = Some local ->
              (hash local =? hash remote)%string = false ->
              exists i, In (new_conflict k local remote (clock i)) (_conflicts m')).
    { intros local G E.
      assert (Hp : In (k, local, remote) (flat_map (clashes fetch m) ks)).
      { apply in_flat_map. exists k. split; [assumption|].
        unfold clashes. rewrite Hf, G, E. now left. }
      apply In_nth_error in Hp. destruct Hp as [j Hj].
      exists (0 + j)%nat. rewrite Hc. apply in_or_app. right.
      apply stamp_In. now exists j, (k, local, remote). }
    unfold pulls in *. rewrite Hf in *.
    destruct (Dict.get k (_local_cache m)) as [local|]; [|now split].
    split.
    + intros Heq. apply String.eqb_eq in Heq. rewrite Heq in *. now split.
    + intros Hne. apply String.eqb_neq in Hne. rewrite Hne in Hg.
      split; [assumption|]. split; [assumption|]. now apply Hcl.
  - intros k Hk. rewrite (Hg k). destruct Hk as [Hnotin|Hnone].
    + now rewrite (not_In_existsb k ks Hnotin).
    + unfold pulls. rewrite Hnone. now rewrite andb_false_r.
Qed.

(** The theorem on a target named twice, against a record ahead of the
    remote one: both occurrences are logged, at two readings of the clock,
    and none is counted. *)
Lemma sync_from_primary_rule_witness :
  fst (sync_from_primary behind_fetch ahead_manager (Some ["a"%string; "a"%string])
         sample_clock) = 0
  /\ _conflicts (snd (sync_from_primary behind_fetch ahead_manager
                        (Some ["a"%string; "a"%string]) sample_clock))
     = [new_conflict "a" (sample_state "a" "h2" 2%float 2)
          (sample_remote "a" "h1" 1%float 1) 5%float;
        new_conflict "a" (sample_state "a" "h2" 2%float 2)
          (sample_remote "a" "h1" 1%float 1) 6%float].
Proof.
  destruct (sync_from_primary_rule behind_fetch ahead_manager
              (Some ["a"%string; "a"%string]) sample_clock) as (Hn & Hc & _).
  split; [exact Hn | exact Hc].
Defined.

(** C2 as stated fails twice.  A remote record identical to the local one is
    stored and counted although the remote does not differ; and a local record
    at version 2 against a remote record at version 1 with another hash is
    logged as a conflict, although the rule of [detect_conflicts] finds none
    (its result is empty on the same input). *)
Lemma sync_from_primary_counterexample :
  fst (sync_from_primary same_fetch sample_manager (Some ["a"%string]) sample_clock) = 1
  /\ same_fetch "a" CLOUDFLARE = Dict.get "a" (_local_cache sample_manager)
  /\ _conflicts (snd (sync_from_primary behind_fetch ahead_manager (Some ["a"%string])
                        sample_clock))
     = [new_conflict "a" (sample_state "a" "h2" 2%float 2)
          (sample_remote "a" "h1" 1%float 1) 5%float]
  /\ fst (detect_conflicts behind_fetch ahead_manager sample_clock) = [].
Proof. repeat split. Qed.

(** ** Conflict resolution *)

(** Equal timestamps ([==] on floats) are not in the order [>]. *)
Lemma SFcompare_Eq_not_Lt (a b : spec_float) :
  SFcompare a b = Some Eq -> SFltb b a = false.
Proof.
  unfold SFltb.
  destruct a as [sa|sa| |sa ma ea], b as [sb|sb| |sb mb eb]; simpl;
    try destruct sa; try destruct sb; simpl; try congruence.
  all: change (PosDef.Pos.compare_cont Eq) with Pos.compare.
  all: destruct (Z.compare ea eb) eqn:E; try congruence;
    apply Z.compare_eq in E; subst; rewrite Z.compare_refl;
    destruct (Pos.compare ma mb) eqn:E2; simpl; try congruence;
    apply Pos.compare_eq in E2; subst; rewrite Pos.compare_refl; reflexivity.
Qed.

Lemma float_eqb_not_ltb (a b : float) :
  (a =? b)%float = true -> (b <? a)%float = false.
Proof.
  rewrite eqb_spec, ltb_spec. unfold SFeqb. intros E.
  apply SFcompare_Eq_not_Lt.
  destruct (SFcompare (Prim2SF a) (Prim2SF b)) as [[]|]; congruence.
Qed.

Section Resolution.
Context `{Hashlib}.

(** C3 (amended): with [LAST_WRITE_WINS], [resolve_conflict] returns the
    local record when the local timestamp is strictly greater than the
    remote one, and the remote record otherwise: when the remote timestamp
    is strictly greater and also when the two timestamps are equal. *)
Theorem last_write_wins_rule (m : StateManager) (c : SyncConflict)
    (merged_value : option (pydict json)) (now : float) :
  let res := snd (resolve_conflict m c LAST_WRITE_WINS merged_value now) in
  let lt := timestamp (local_state c) in
  let rt := timestamp (remote_state c) in
  ((rt <? lt)%float = true -> res = Ok (local_state c))
  /\ ((rt <? lt)%float = false -> res = Ok (remote_state c))
  /\ ((lt <? rt)%float = true -> res = Ok (remote_state c))
  /\ ((lt =? rt)%float = true -> res = Ok (remote_state c)).
Proof.
  intros res lt rt.
  assert (Hf : (rt <? lt)%float = false -> res = Ok (remote_state c)).
  { intros E. unfold res, resolve_conflict. fold rt lt. now rewrite E. }
  split; [|split; [exact Hf|split]].
  - intros E. unfold res, resolve_conflict. fold rt lt. now rewrite E.
  - intros E. apply Hf.
    rewrite ltb_spec in *. unfold SFltb in *.
    destruct (SFcompare (Prim2SF lt) (Prim2SF rt)) as [[]|] eqn:C; try discriminate.
    destruct (Prim2SF lt) as [sa|sa| |sa ma ea], (Prim2SF rt) as [sb|sb| |sb mb eb];
      simpl in *; try destruct sa; try destruct sb; simpl in *; try congruence.
    all: change (PosDef.Pos.compare_cont Eq) with Pos.compare in *.
    all: rewrite (Z.compare_antisym ea eb);
      destruct (Z.compare ea eb) eqn:Ee; simpl; try congruence;
      rewrite (Pos.compare_antisym ma mb);
      destruct (Pos.compare ma mb) eqn:Em; simpl in *; congruence.
  - intros E. apply Hf. now apply float_eqb_not_ltb.
Qed.

(** What [put] stores and returns. *)
Lemma put_spec (m : StateManager) (k : string) (v : pydict json)
    (src : option SyncSource) (now : float) :
  let '(state, m') := put m k v src now in
  key state = k
  /\ value state = v
  /\ hash state = hash_state v
  /\ source state = match src with Some s => s | None => LOCAL end
  /\ version state = match Dict.get k (_local_cache m) with
                     | Some e => version e + 1
                     | None => 1
                     end
  /\ _local_cache m' = Dict.set k state (_local_cache m)
  /\ _pending_syncs m' = _pending_syncs m ++ [k]
  /\ _conflicts m' = _conflicts m.
Proof. unfold put. simpl. now repeat split. Qed.

(** C6 (amended): resolving with [MERGE] and a non-empty [merged_value]
    performs [put] of the merged value under the key of the conflict, with
    source [LOCAL] and the hash of the merged value; the version of the
    resulting record is one more than the version cached under that key (1
    when there is none).  When the cache still holds the local record of the
    conflict the new version is therefore above the local version, and it
    is above the remote version only when the remote version does not
    exceed the local one. *)
Theorem merge_resolution_version (m : StateManager) (c : SyncConflict)
    (v : pydict json) (now : float) :
  v <> [] ->
  let '(m', c', res) := resolve_conflict m c MERGE (Some v) now in
  exists w,
    res = Ok w
    /\ w = fst (put m (conflict_key c) v None now)
    /\ value w = v /\ source w = LOCAL /\ hash w = hash_state v
    /\ version w = match Dict.get (conflict_key c) (_local_cache m) with
                   | Some e => version e + 1
                   | None => 1
                   end
    /\ Dict.get (conflict_key c) (_local_cache m') = Some w
    /\ (Dict.get (conflict_key c) (_local_cache m) = Some (local_state c) ->
        version w = version (local_state c) + 1
        /\ version w > version (local_state c)
        /\ (version w > version (remote_state c)
            <-> version (remote_state c) <= version (local_state c))).
Proof.
  intros Hv. unfold resolve_conflict.
  destruct v as [|kv v]; [contradiction|].
  pose proof (put_spec m (conflict_key c) (kv :: v) None now) as P.
  destruct (put m (conflict_key c) (kv :: v) None now) as [w m1] eqn:E.
  destruct P as (_ & Pv & Ph & Ps & Pver & _).
  unfold install_winner. simpl.
  exists w. do 6 (split; [first [reflexivity | assumption]|]).
  split; [apply DictFacts.get_set_same|].
  intros Hlocal. rewrite Pver, Hlocal. repeat split; lia.
Qed.

(** C8 (amended): [resolve_conflict] fails with [InvalidArgument] exactly
    when the policy is [MERGE] and [merged_value] is absent or the empty
    mapping, fails with [UnsupportedResolution] exactly when the policy is
    [MANUAL], and does not fail otherwise; whenever it fails, the manager
    (cache, queue and log) and the conflict (resolved flag and resolution
    field) are as before the call. *)
Theorem resolve_conflict_failures (m : StateManager) (c : SyncConflict)
    (r : ConflictResolution) (merged_value : option (pydict json)) (now : float) :
  let '(m', c', res) := resolve_conflict m c r merged_value now in
  (res = Raise InvalidArgument
     <-> r = MERGE /\ (merged_value = None \/ merged_value = Some []))
  /\ (res = Raise UnsupportedResolution <-> r = MANUAL)
  /\ (forall e, res = Raise e ->
        (e = InvalidArgument \/ e = UnsupportedResolution)
        /\ m' = m /\ c' = c).
Proof.
  unfold resolve_conflict, install_winner, InvalidArgument, UnsupportedResolution.
  destruct r; simpl.
  - destruct (_ <? _)%float; (split; [|split]);
      try (split; [discriminate | intros [? _]; discriminate]);
      try (split; discriminate); intros e; discriminate.
  - split; [|split]; try (split; [discriminate | intros [? _]; discriminate]);
      try (split; discriminate); intros e; discriminate.
  - split; [|split].
    + split; [discriminate | intros [? _]; discriminate].
    + tauto.
    + intros e [= <-]. tauto.
  - destruct merged_value as [[|kv v]|]; simpl.
    + split; [|split].
      * tauto.
      * split; discriminate.
      * intros e [= <-]. tauto.
    + split; [|split].
      * split; [discriminate | intros [_ [?|?]]; discriminate].
      * split; discriminate.
      * intros e; discriminate.
    + split; [|split].
      * tauto.
      * split; discriminate.
      * intros e [= <-]. tauto.
Qed.

End Resolution.

(** C3 as stated fails on a tie: with equal timestamps the remote record is
    returned, whatever the hasher, and it is not the local record. *)
Lemma last_write_wins_counterexample :
  (timestamp (local_state tie_conflict) =? timestamp (remote_state tie_conflict))%float = true
  /\ local_state tie_conflict <> remote_state tie_conflict
  /\ ~ exists H : Hashlib,
         snd (resolve_conflict sample_manager tie_conflict LAST_WRITE_WINS None 9%float)
         = Ok (local_state tie_conflict).
Proof.
  split; [reflexivity|]. split; [discriminate|].
  intros [H E]. discriminate E.
Qed.

Lemma merge_resolution_version_witness :
  exists w,
    snd (resolve_conflict (H := sample_hashlib) sample_manager far_conflict MERGE
           (Some merged_sample) 9%float) = Ok w
    /\ version w = 2.
Proof.
  assert (Hv : merged_sample <> []) by discriminate.
  pose proof (merge_resolution_version (H := sample_hashlib) sample_manager far_conflict
                merged_sample 9%float Hv) as P.
  simpl in P. destruct P as (w & Hres & _ & _ & _ & _ & Hver & _).
  exists w. split; [exact Hres | exact Hver].
Defined.

(** C6 as stated fails: the cache holds the local record of [far_conflict] at
    version 1, the remote record is at version 5, and the merged record gets
    version 2, which is not above 5, whatever the hasher. *)
Lemma merge_resolution_counterexample :
  Dict.get "a" (_local_cache sample_manager) = Some (local_state far_conflict)
  /\ ~ exists H : Hashlib,
         match snd (resolve_conflict sample_manager far_conflict MERGE
                      (Some merged_sample) 9%float) with
         | Ok w => version w > version (local_state far_conflict)
                   /\ version w > version (remote_state far_conflict)
         | Raise _ => False
         end.
Proof.
  split; [reflexivity|].
  intros [H [_ Hgt]]. simpl in Hgt. lia.
Qed.

(** C8 as stated fails: with [MERGE] and the empty mapping supplied as
    [merged_value], the call fails with [InvalidArgument], whatever the
    hasher. *)
Lemma resolve_conflict_failures_counterexample :
  ~ exists H : Hashlib,
      snd (resolve_conflict sample_manager far_conflict MERGE (Some []) 9%float)
      <> Raise InvalidArgument.
Proof.
  intros [H Hne]. apply Hne. reflexivity.
Qed.

(** ** The pending queue *)

(** C5 (amended): [put] appends the key at the end of the pending queue
    whether or not the key is queued already; two [put]s of one key leave two
    entries for it. *)
Theorem put_always_appends `{Hashlib} (m : StateManager) (k : string)
    (v v2 : pydict json) (src src2 : option SyncSource) (now now2 : float) :
  _pending_syncs (snd (put m k v src now)) = _pending_syncs m ++ [k]
  /\ _pending_syncs (snd (put (snd (put m k v src now)) k v2 src2 now2))
     = _pending_syncs m ++ [k; k].
Proof.
  split; [reflexivity|].
  simpl. now rewrite <- app_assoc.
Qed.

(** C5 as stated fails: after two [put]s of ["a"] on a new manager the queue
    is [["a"; "a"]], which repeats an entry, whatever the hasher. *)
Lemma put_dedup_counterexample :
  ~ exists H : Hashlib,
      NoDup (_pending_syncs
               (snd (put (snd (put new_manager "a" sample_value None 1%float))
                       "a" merged_sample None 2%float))).
Proof.
  intros [H Hnd]. simpl in Hnd.
  inversion Hnd as [|? ? Hnotin _]. apply Hnotin. now left.
Qed.

(** *** [sync_all] *)

Lemma list_remove_app (k : string) (l1 l2 : list string) :
  ~ In k l1 -> list_remove k (l1 ++ k :: l2) = Ok (l1 ++ l2).
Proof.
  induction l1 as [|y l1 IH]; simpl; intros Hnotin.
  - now rewrite String.eqb_refl.
  - destruct (y =? k)%string eqn:E.
    + apply String.eqb_eq in E. exfalso. auto.
    + rewrite IH by tauto. reflexivity.
Qed.

Section SyncAll.
Variable push : SyncState -> SyncSource -> push_outcome.

Lemma sync_all_loop_spec (todo done : list string) (m : StateManager)
    (results : SyncResults) :
  _pending_syncs m = unsynced (_local_cache m) done ++ todo ->
  sync_all_loop push todo m results
  = Ok (pushed push (_local_cache m) todo results,
        with_pending m (unsynced (_local_cache m) (done ++ todo))).
Proof.
  revert done m results.
  induction todo as [|k todo IH]; intros done m results Hq; simpl.
  - rewrite app_nil_r in *. rewrite <- Hq. now rewrite with_pending_same.
  - unfold pushed. cbn [fold_left].
    destruct (Dict.get k (_local_cache m)) as [state|] eqn:G.
    + assert (Hdone : unsynced (_local_cache m) (done ++ [k])
                      = unsynced (_local_cache m) done).
      { unfold unsynced. rewrite filter_app. simpl. unfold Dict.mem. rewrite G.
        simpl. now rewrite app_nil_r. }
      rewrite Hq, list_remove_app.
      * rewrite (IH (done ++ [k])).
        -- simpl. now rewrite <- app_assoc.
        -- simpl. now rewrite Hdone.
      * unfold unsynced. intros Hin. apply filter_In in Hin.
        destruct Hin as [_ Hin]. unfold Dict.mem in Hin. rewrite G in Hin. discriminate.
    + rewrite (IH (done ++ [k])).
      * now rewrite <- app_assoc.
      * rewrite Hq. unfold unsynced. rewrite filter_app. simpl.
        unfold Dict.mem. rewrite G. simpl. now rewrite <- app_assoc.
Qed.

(** [sync_all] never raises.  It leaves the cache as it is, pushes every queue
    entry that has a cached record to both secondary sources, and keeps in the
    queue exactly the entries that have no cached record. *)
Lemma sync_all_spec (m : StateManager) :
  sync_all push m
  = Ok (pushed push (_local_cache m) (_pending_syncs m) (mkSyncResults [] [] []),
        with_pending m (unsynced (_local_cache m) (_pending_syncs m))).
Proof.
  unfold sync_all. apply (sync_all_loop_spec (_pending_syncs m) [] m). reflexivity.
Qed.

(** An entry without a cached record, such as a tombstone, is still queued
    after [sync_all]; an entry with one is not. *)
Lemma sync_all_queue (m : StateManager) (k : string) :
  In k (unsynced (_local_cache m) (_pending_syncs m))
  <-> In k (_pending_syncs m) /\ Dict.get k (_local_cache m) = None.
Proof.
  unfold unsynced. rewrite filter_In. unfold Dict.mem.
  destruct (Dict.get k (_local_cache m)); simpl; intuition discriminate.
Qed.

End SyncAll.

(** C4, the code at the failing input: after [put] and [delete] of a key on a
    new manager the queue holds the key and its tombstone; [sync_all] then
    attempts no push (the results are empty) and leaves both entries in the
    queue. *)
Theorem sync_all_keeps_tombstones `{Hashlib}
    (push : SyncState -> SyncSource -> push_outcome)
    (k : string) (v : pydict json) (now : float) :
  let m1 := snd (put new_manager k v None now) in
  let m2 := snd (delete m1 k) in
  _pending_syncs m2 = [k; ("DELETE:" ++ k)%string]
  /\ sync_all push m2 = Ok (mkSyncResults [] [] [], m2).
Proof.
  cbv zeta. unfold delete, Dict.mem, put, new_manager. cbn. rewrite String.eqb_refl. cbn.
  split; reflexivity.
Qed.

(** ** Snapshots *)

Lemma SyncSource_of_value_value (s : SyncSource) :
  SyncSource_of_value (SyncSource_value s) = Ok s.
Proof. now destruct s. Qed.

Lemma from_dict_to_dict (now : float) (s : SyncState) :
  from_dict now (to_dict s) = Ok s.
Proof.
  unfold from_dict, to_dict, subscript, get_default. cbn.
  rewrite SyncSource_of_value_value. now destruct s.
Qed.

(** What [from_dict] reads: the record carries the ["hash"] and the ["value"]
    of the dictionary as they are. *)
Lemma from_dict_fields (now : float) (data : pydict json) (s : SyncState) :
  from_dict now data = Ok s ->
  Dict.get "hash" data = Some (JStr (hash s))
  /\ Dict.get "value" data = Some (JObj (value s)).
Proof.
  unfold from_dict, subscript.
  destruct (Dict.get "key" data) as [jk|]; [|discriminate].
  destruct (Dict.get "value" data) as [jv|]; [|discriminate].
  destruct (Dict.get "hash" data) as [jh|]; [|discriminate].
  destruct (Dict.get "source" data) as [js|]; [|discriminate].
  destruct js; try discriminate.
  destruct (SyncSource_of_value s0); [|discriminate].
  destruct jk; try discriminate. destruct jv; try discriminate.
  destruct jh; try discriminate. cbn.
  destruct (as_float _); [|discriminate].
  destruct (as_int _); [|discriminate].
  destruct (as_dict _); [|discriminate].
  intros [= <-]. now split.
Qed.

Lemma as_str_list_map (p : list string) : as_str_list (map JStr p) = Ok p.
Proof. induction p as [|s p IH]; simpl; [reflexivity | now rewrite IH]. Qed.

(** Whether [from_dict] accepts a dictionary, and the hash and the value of
    the record it builds, do not depend on the reading of the clock. *)
Lemma from_dict_clock (now now' : float) (data : pydict json) (s : SyncState) :
  from_dict now data = Ok s ->
  exists s', from_dict now' data = Ok s' /\ hash s' = hash s /\ value s' = value s.
Proof.
  unfold from_dict, subscript, get_default.
  destruct (Dict.get "key" data) as [jk|]; [|discriminate].
  destruct (Dict.get "value" data) as [jv|]; [|discriminate].
  destruct (Dict.get "hash" data) as [jh|]; [|discriminate].
  destruct (Dict.get "source" data) as [js|]; [|discriminate].
  destruct js; try discriminate.
  destruct (SyncSource_of_value s0); [|discriminate].
  destruct jk; try discriminate. destruct jv; try discriminate.
  destruct jh; try discriminate. cbn.
  destruct (Dict.get "timestamp" data) as [jt|]; cbn.
  - destruct (as_float jt); [|discriminate].
    destruct (as_int _); [|discriminate].
    destruct (as_dict _); [|discriminate].
    intros [= <-]. eexists. split; [reflexivity|]. now split.
  - destruct (as_int _); [|discriminate].
    destruct (as_dict _); [|discriminate].
    intros [= <-]. eexists. split; [reflexivity|]. now split.
Qed.

Lemma load_states_saved (clock : nat -> float) (i : nat) (items : pydict SyncState)
    (m : StateManager) :
  load_states clock i (saved_states items) m
  = (with_cache m (store_all items (_local_cache m)), Ok tt).
Proof.
  revert i m. induction items as [|[k v] items IH]; intros i m; simpl.
  - now rewrite with_cache_same.
  - rewrite from_dict_to_dict, IH. reflexivity.
Qed.

Lemma set_new {V : Type} (k : string) (v : V) (d : pydict V) :
  Dict.get k d = None -> Dict.set k v d = d ++ [(k, v)].
Proof.
  induction d as [|[k0 v0] d IH]; simpl; [reflexivity|].
  destruct (k0 =? k)%string; [discriminate|].
  intros G. now rewrite IH.
Qed.

(** Into a cache that shares no key with them, distinct items go in order. *)
Lemma store_all_fresh (items cache : pydict SyncState) :
  Dict.wf (cache ++ items) -> store_all items cache = cache ++ items.
Proof.
  revert cache. induction items as [|[k v] items IH]; intros cache Hwf; simpl.
  - now rewrite app_nil_r.
  - assert (G : Dict.get k cache = None).
    { apply DictFacts.get_None_notin. unfold Dict.wf, Dict.keys in *.
      rewrite map_app in Hwf. simpl in Hwf.
      apply NoDup_remove_2 in Hwf. intros Hin. apply Hwf.
      apply in_or_app. now left. }
    unfold store_all in *. simpl. rewrite set_new by assumption.
    rewrite IH; rewrite <- app_assoc; [reflexivity | exact Hwf].
Qed.

(** Into a cache that holds them already, items change nothing. *)
Lemma store_all_same (items cache : pydict SyncState) :
  Dict.wf cache -> incl items cache -> store_all items cache = cache.
Proof.
  intros Hwf. induction items as [|[k v] items IH]; intros Hincl; [reflexivity|].
  unfold store_all in *. simpl.
  rewrite DictFacts.set_same.
  - apply IH. intros x Hx. apply Hincl. now right.
  - apply DictFacts.In_get; [assumption|]. apply Hincl. now left.
Qed.

(** C9: [save_local] followed by [load_local] on the same manager gives back
    the manager as it was (same cache: same keys in the same order, each with
    the same record, that is the same value, hash, source, timestamp, version
    and metadata; same pending queue in the same order), and loading the
    snapshot into a manager with an empty cache, such as a new one, gives the
    cache and the pending queue of the manager that was saved.  The count
    returned is the size of the cache. *)
Theorem save_load_round_trip (m : StateManager) (saved_at : float)
    (clock : nat -> float) :
  Dict.wf (_local_cache m) ->
  load_local m clock (Some (save_local m saved_at))
  = (m, Ok (Z.of_nat (length (_local_cache m))))
  /\ forall m0,
       _local_cache m0 = [] ->
       let m1 := fst (load_local m0 clock (Some (save_local m saved_at))) in
       snd (load_local m0 clock (Some (save_local m saved_at)))
       = Ok (Z.of_nat (length (_local_cache m)))
       /\ _local_cache m1 = _local_cache m
       /\ _pending_syncs m1 = _pending_syncs m
       /\ Dict.keys (_local_cache m1) = Dict.keys (_local_cache m)
       /\ forall k, Dict.get k (_local_cache m1) = Dict.get k (_local_cache m).
Proof.
  intros Hwf.
  assert (Hload : forall m0,
    load_local m0 clock (Some (save_local m saved_at))
    = (with_pending (with_cache m0 (store_all (_local_cache m) (_local_cache m0)))
         (_pending_syncs m),
       Ok (Z.of_nat (length (store_all (_local_cache m) (_local_cache m0)))))).
  { intros m0. unfold load_local, save_local, get_default. cbn [Dict.get String.eqb Ascii.eqb Bool.eqb].
    fold (saved_states (_local_cache m)).
    rewrite load_states_saved, as_str_list_map. reflexivity. }
  split.
  - rewrite Hload, store_all_same by (assumption || apply incl_refl).
    now rewrite with_cache_same, with_pending_same.
  - intros m0 Hempty. cbv zeta. rewrite Hload, Hempty.
    rewrite store_all_fresh by exact Hwf. simpl. repeat split.
Qed.

Lemma save_load_round_trip_witness :
  load_local sample_manager sample_clock (Some (save_local sample_manager 8%float))
  = (sample_manager, Ok 1).
Proof.
  apply (save_load_round_trip sample_manager 8%float sample_clock sample_manager_wf).
Defined.

(** ** The hash of a cached record *)

Section HashInvariant.
Context `{Hashlib}.

Lemma set_hash_ok k s d :
  hash_ok s -> cache_hash_ok d -> cache_hash_ok (Dict.set k s d).
Proof.
  unfold cache_hash_ok. intros Hs. induction d as [|[k0 s0] d IH]; simpl; intros Hd.
  - now repeat constructor.
  - inversion Hd; subst. destruct (k0 =? k)%string; constructor; auto.
Qed.

Lemma del_hash_ok k d : cache_hash_ok d -> cache_hash_ok (Dict.del k d).
Proof.
  unfold cache_hash_ok. induction d as [|[k0 s0] d IH]; simpl; intros Hd.
  - constructor.
  - inversion Hd; subst. destruct (k0 =? k)%string; [assumption|].
    constructor; auto.
Qed.

Lemma get_hash_ok k s d : cache_hash_ok d -> Dict.get k d = Some s -> hash_ok s.
Proof.
  intros Hd G. apply DictFacts.get_In in G.
  unfold cache_hash_ok in Hd. rewrite Forall_forall in Hd. exact (Hd _ G).
Qed.

Lemma put_hash_ok m k v src now :
  cache_hash_ok (_local_cache m) ->
  hash_ok (fst (put m k v src now))
  /\ cache_hash_ok (_local_cache (snd (put m k v src now))).
Proof.
  intros Hm. assert (Hs : hash_ok (fst (put m k v src now))) by reflexivity.
  split; [exact Hs|]. simpl. now apply set_hash_ok.
Qed.

Lemma delete_hash_ok m k :
  cache_hash_ok (_local_cache m) -> cache_hash_ok (_local_cache (snd (delete m k))).
Proof.
  intros Hm. unfold delete. destruct (Dict.mem k (_local_cache m)); simpl.
  - now apply del_hash_ok.
  - assumption.
Qed.

Lemma resolve_hash_ok m c r merged_value now :
  cache_hash_ok (_local_cache m) ->
  r = MERGE \/ (hash_ok (local_state c) /\ hash_ok (remote_state c)) ->
  cache_hash_ok (_local_cache (fst (fst (resolve_conflict m c r merged_value now)))).
Proof.
  intros Hm Hc. unfold resolve_conflict, install_winner.
  destruct r.
  - destruct Hc as [|[Hl Hr]]; [discriminate|].
    destruct (_ <? _)%float; simpl; now apply set_hash_ok.
  - destruct Hc as [|[Hl Hr]]; [discriminate|]. simpl. now apply set_hash_ok.
  - assumption.
  - destruct merged_value as [[|kv v]|]; try assumption.
    simpl. apply set_hash_ok; [reflexivity|]. now apply set_hash_ok.
Qed.

Lemma sync_from_primary_hash_ok fetch m keys clock :
  (forall k src s, fetch k src = Some s -> hash_ok s) ->
  cache_hash_ok (_local_cache m) ->
  cache_hash_ok (_local_cache (snd (sync_from_primary fetch m keys clock))).
Proof.
  intros Hfetch Hm. rewrite sync_from_primary_loop. cbn [snd].
  apply pull_loop_cache; [|assumption].
  intros d k src remote F Hd. apply set_hash_ok; [|assumption].
  exact (Hfetch _ _ _ F).
Qed.

Lemma states_hash_ok_clock now now' states :
  states_hash_ok now states -> states_hash_ok now' states.
Proof.
  intros Hst k d s Hin E.
  destruct (from_dict_clock now' now d s E) as (s' & E' & Hh & Hv).
  pose proof (Hst k d s' Hin E') as Hok.
  unfold hash_ok in *. congruence.
Qed.

Lemma load_states_hash_ok now clock i states m :
  states_hash_ok now states ->
  cache_hash_ok (_local_cache m) ->
  cache_hash_ok (_local_cache (fst (load_states clock i states m))).
Proof.
  revert i m. induction states as [|[k j] states IH]; intros i m Hst Hm; [assumption|].
  simpl. destruct j; try assumption.
  destruct (from_dict (clock i) fields) as [s|e] eqn:E; [|assumption].
  apply IH.
  - intros k' d s' Hin. apply (Hst k'). now right.
  - simpl. apply set_hash_ok; [|assumption].
    apply (states_hash_ok_clock now (clock i)) in Hst.
    apply (Hst k fields); [now left | assumption].
Qed.

Lemma load_local_hash_ok m now clock file :
  file_hash_ok now file ->
  cache_hash_ok (_local_cache m) ->
  cache_hash_ok (_local_cache (fst (load_local m clock file))).
Proof.
  intros Hfile Hm. unfold load_local, file_hash_ok in *.
  destruct file as [[]|]; try assumption.
  destruct (get_default fields "states" (JObj [])); try assumption.
  pose proof (load_states_hash_ok now clock 0 fields0 m Hfile Hm) as Hl.
  destruct (load_states clock 0 fields0 m) as [m1 [[]|e]]; simpl in *; [|assumption].
  destruct (get_default fields "pending_syncs" (JList [])); try assumption.
  destruct (as_str_list elems); assumption.
Qed.

(** C7 (amended): when every cached record carries the hash of its value,
    this still holds after [put] (which computes the hash of the value it
    stores) and after [delete]; after [resolve_conflict] with [MERGE], and
    with the other policies provided the two records of the conflict carry
    the hash of their value; after [sync_from_primary] provided the records
    the backend returns do; and after [load_local] provided the records of
    the file do, at whatever times the clock is read.  The last three store
    the hash they are given: a record read by [from_dict] has the ["hash"]
    entry of the file as its hash. *)
Theorem hash_invariant_preserved (m : StateManager) :
  cache_hash_ok (_local_cache m) ->
  (forall k v src now,
      hash_ok (fst (put m k v src now))
      /\ cache_hash_ok (_local_cache (snd (put m k v src now))))
  /\ (forall k, cache_hash_ok (_local_cache (snd (delete m k))))
  /\ (forall c r merged_value now,
        r = MERGE \/ (hash_ok (local_state c) /\ hash_ok (remote_state c)) ->
        cache_hash_ok
          (_local_cache (fst (fst (resolve_conflict m c r merged_value now)))))
  /\ (forall fetch keys clock,
        (forall k src s, fetch k src = Some s -> hash_ok s) ->
        cache_hash_ok (_local_cache (snd (sync_from_primary fetch m keys clock))))
  /\ (forall now clock file,
        file_hash_ok now file ->
        cache_hash_ok (_local_cache (fst (load_local m clock file))))
  /\ (forall now data s,
        from_dict now data = Ok s -> Dict.get "hash" data = Some (JStr (hash s))).
Proof.
  intros Hm. split; [|split; [|split; [|split; [|split]]]].
  - intros. now apply put_hash_ok.
  - intros. now apply delete_hash_ok.
  - intros. now apply resolve_hash_ok.
  - intros. now apply sync_from_primary_hash_ok.
  - intros now clock file Hfile. now apply (load_local_hash_ok m now).
  - intros now data s E. now apply from_dict_fields in E.
Qed.

End HashInvariant.

Lemma hash_invariant_preserved_witness :
  cache_hash_ok (H := sample_hashlib)
    (_local_cache (snd (put (H := sample_hashlib) new_manager "a" sample_value None 1%float))).
Proof.
  assert (Hm : cache_hash_ok (H := sample_hashlib) (_local_cache new_manager))
    by constructor.
  apply (hash_invariant_preserved (H := sample_hashlib) new_manager Hm).
Defined.

(** C7 as stated fails: [load_local] on a new manager, whose empty cache
    satisfies the invariant, stores the two records of [forged_snapshot] with
    the hashes of the file, ["h1"] and ["h2"], for one and the same value; no
    hasher gives both. *)
Lemma hash_invariant_counterexample :
  ~ exists H : Hashlib,
      cache_hash_ok (_local_cache (fst (load_local new_manager sample_clock
                                         (Some forged_snapshot)))).
Proof.
  intros [H Hok]. vm_compute in Hok.
  inversion Hok as [|? ? Ha Hrest]; subst.
  inversion Hrest as [|? ? Hb _]; subst.
  simpl in Ha, Hb.
  assert (E : "h1"%string = "h2"%string) by (rewrite Hb; exact Ha).
  discriminate E.
Qed.

(* ------------------------------------------------------------------------- *)
(** * Further properties of the manager *)

(** ** Reading and writing the cache *)

Section CacheOps.
Context `{Hashlib}.
Variable fetch : string -> SyncSource -> option SyncState.

(** X1: what [put] stores under a key is what [get] returns for it next,
    from the cache: the backend is not asked and the manager does not change.
    The record carries the value, its hash and the clock reading of the
    [put]; the other keys of the cache are as before. *)
Theorem get_after_put (m : StateManager) (k : string) (v : pydict json)
    (src : option SyncSource) (now : float) :
  let state := fst (put m k v src now) in
  let m1 := snd (put m k v src now) in
  get fetch m1 k = (Some state, m1)
  /\ key state = k /\ value state = v /\ hash state = hash_state v
  /\ timestamp state = now
  /\ forall k', k' <> k ->
       Dict.get k' (_local_cache m1) = Dict.get k' (_local_cache m).
Proof.
  cbv zeta. split.
  - unfold get. simpl. now rewrite DictFacts.get_set_same.
  - repeat split. intros k' Hne. simpl. apply DictFacts.get_set_other. congruence.
Qed.

Lemma put_version_of (m : StateManager) (k k' : string) (v : pydict json)
    (src : option SyncSource) (now : float) :
  version_of (snd (put m k v src now)) k'
  = version_of m k' + (if (k =? k')%string then 1 else 0).
Proof.
  unfold version_of. simpl.
  destruct (k =? k')%string eqn:E.
  - apply String.eqb_eq in E. subst k'. rewrite DictFacts.get_set_same. simpl.
    destruct (Dict.get k (_local_cache m)); lia.
  - apply String.eqb_neq in E. rewrite DictFacts.get_set_other by assumption.
    destruct (Dict.get k' (_local_cache m)); lia.
Qed.

(** X2: over any run of [put] calls, the version cached under a key grows by
    exactly the number of calls on that key (calls on other keys do not
    count; a key never stored counts from 0), and the pending queue grows by
    the keys of the calls, in call order. *)
Theorem puts_count_versions (m : StateManager)
    (calls : list (string * pydict json * option SyncSource * float)) (k : string) :
  version_of (puts m calls) k
  = version_of m k
    + Z.of_nat (length (filter (fun c => (call_key c =? k)%string) calls))
  /\ _pending_syncs (puts m calls) = _pending_syncs m ++ map call_key calls.
Proof.
  revert m. induction calls as [|[[[k0 v0] src0] now0] calls IH]; intros m.
  - simpl. split; [lia | now rewrite app_nil_r].
  - unfold puts in *. cbn [fold_left].
    destruct (IH (snd (put m k0 v0 src0 now0))) as [IHv IHq].
    rewrite IHv, IHq, put_version_of. split.
    + cbn [filter call_key]. destruct (k0 =? k)%string; cbn [length]; lia.
    + simpl. now rewrite <- app_assoc.
Qed.

(** X3: [delete] of a cached key returns [True], removes the record, leaves
    the other keys as they are and appends the tombstone ["DELETE:" ++ k]
    to the pending queue; a second [delete] of the key then returns [False]
    and changes nothing.  [delete] of a key that is not cached returns
    [False] and changes nothing. *)
Theorem delete_effects (m : StateManager) (k : string) :
  Dict.wf (_local_cache m) ->
  let m1 := snd (delete m k) in
  (forall s, Dict.get k (_local_cache m) = Some s ->
     fst (delete m k) = true
     /\ Dict.get k (_local_cache m1) = None
     /\ (forall k', k' <> k ->
           Dict.get k' (_local_cache m1) = Dict.get k' (_local_cache m))
     /\ _pending_syncs m1 = _pending_syncs m ++ [("DELETE:" ++ k)%string]
     /\ _conflicts m1 = _conflicts m
     /\ delete m1 k = (false, m1))
  /\ (Dict.get k (_local_cache m) = None -> delete m k = (false, m)).
Proof.
  intros Hwf m1. split.
  - intros s G. unfold m1, delete, Dict.mem. rewrite G. simpl.
    rewrite DictFacts.get_del_same by assumption.
    repeat split. intros k' Hne. apply DictFacts.get_del_other. congruence.
  - intros G. unfold delete, Dict.mem. now rewrite G.
Qed.

(** X4: [delete] forgets the version of a key: whatever version the key had,
    a [put] after its [delete] stores version 1 again. *)
Theorem put_after_delete_restarts (m : StateManager) (k : string) (v : pydict json)
    (src : option SyncSource) (now : float) :
  Dict.wf (_local_cache m) ->
  version (fst (put (snd (delete m k)) k v src now)) = 1.
Proof.
  intros Hwf. unfold delete, Dict.mem.
  destruct (Dict.get k (_local_cache m)) eqn:G; simpl.
  - now rewrite DictFacts.get_del_same.
  - now rewrite G.
Qed.

(** X5: on a cache miss [get] asks the primary source.  A record it returns
    is appended to the cache under the key, is not queued for pushing, and is
    what every later [get] of the key returns, whatever the backend says
    then; when the source has nothing, [get] returns nothing and the manager
    is unchanged.  On a cache hit the backend is not asked. *)
Theorem get_caches_fetched (m : StateManager) (k : string) :
  (forall s, Dict.get k (_local_cache m) = Some s -> get fetch m k = (Some s, m))
  /\ (Dict.get k (_local_cache m) = None ->
      fetch k (primary_source m) = None -> get fetch m k = (None, m))
  /\ (forall remote,
        Dict.get k (_local_cache m) = None ->
        fetch k (primary_source m) = Some remote ->
        let m1 := snd (get fetch m k) in
        fst (get fetch m k) = Some remote
        /\ _local_cache m1 = _local_cache m ++ [(k, remote)]
        /\ _pending_syncs m1 = _pending_syncs m
        /\ _conflicts m1 = _conflicts m
        /\ forall fetch', get fetch' m1 k = (Some remote, m1)).
Proof.
  split; [|split].
  - intros s G. unfold get. now rewrite G.
  - intros G F. unfold get. now rewrite G, F.
  - intros remote G F. unfold get. rewrite G, F. simpl.
    rewrite set_new by assumption. repeat split.
    intros fetch'. unfold get. simpl.
    assert (E : Dict.get k (_local_cache m ++ [(k, remote)]) = Some remote).
    { rewrite <- (set_new k remote (_local_cache m) G). apply DictFacts.get_set_same. }
    now rewrite E.
Qed.

End CacheOps.

Lemma delete_effects_witness :
  fst (delete sample_manager "a") = true
  /\ Dict.get "a" (_local_cache (snd (delete sample_manager "a"))) = None.
Proof.
  destruct (delete_effects sample_manager "a" sample_manager_wf) as [Hp _].
  destruct (Hp (sample_state "a" "h1" 1%float 1) eq_refl) as (H1 & H2 & _).
  split; [exact H1 | exact H2].
Defined.

Lemma put_after_delete_restarts_witness :
  version (fst (put (H := sample_hashlib) (snd (delete ahead_manager "a")) "a"
                  merged_sample None 4%float)) = 1.
Proof.
  assert (Hwf : Dict.wf (_local_cache ahead_manager)).
  { unfold Dict.wf. simpl. constructor; [simpl; tauto | constructor]. }
  exact (put_after_delete_restarts (H := sample_hashlib) ahead_manager "a" merged_sample
           None 4%float Hwf).
Defined.

(** ** Pushing the queue *)

Section Pushing.
Variable push : SyncState -> SyncSource -> push_outcome.

Lemma push_one_grows k state results src :
  let r := push_one push k state results src in
  incl (synced results) (synced r)
  /\ incl (failed results) (failed r)
  /\ conflicts r = conflicts results
  /\ (length (synced r) + length (failed r)
      = S (length (synced results) + length (failed results)))%nat
  /\ recorded push r k state src.
Proof.
  unfold push_one, recorded, push_tag.
  destruct (push state src) as [[|]|e]; simpl; rewrite ?length_app; simpl;
    repeat split; try apply incl_refl; try (apply incl_appl, incl_refl); try lia;
    apply in_or_app; right; now left.
Qed.

Lemma recorded_mono r r' k state src :
  incl (synced r) (synced r') -> incl (failed r) (failed r') ->
  recorded push r k state src -> recorded push r' k state src.
Proof.
  unfold recorded. intros Hs Hf. destruct (push state src) as [[|]|e]; auto.
Qed.

(** The pushes of one queue entry to the two secondary sources. *)
Lemma push_both k state results :
  let r := fold_left (push_one push k state) [CLOUDFLARE; SALESFORCE] results in
  incl (synced results) (synced r)
  /\ incl (failed results) (failed r)
  /\ conflicts r = conflicts results
  /\ (length (synced r) + length (failed r)
      = 2 + (length (synced results) + length (failed results)))%nat
  /\ recorded push r k state CLOUDFLARE
  /\ recorded push r k state SALESFORCE.
Proof.
  cbn [fold_left].
  pose proof (push_one_grows k state results CLOUDFLARE) as (S1 & F1 & C1 & L1 & R1).
  pose proof (push_one_grows k state (push_one push k state results CLOUDFLARE) SALESFORCE)
    as (S2 & F2 & C2 & L2 & R2).
  cbv zeta in *. repeat split.
  - eapply incl_tran; eassumption.
  - eapply incl_tran; eassumption.
  - congruence.
  - lia.
  - eapply recorded_mono; eassumption.
  - assumption.
Qed.

Lemma cached_entries_cons (cache : pydict SyncState) k queue :
  cached_entries cache (k :: queue)
  = match Dict.get k cache with
    | Some _ => k :: cached_entries cache queue
    | None => cached_entries cache queue
    end.
Proof.
  unfold cached_entries. cbn [filter]. unfold Dict.mem.
  now destruct (Dict.get k cache).
Qed.

Lemma pushed_cons cache k queue results :
  pushed push cache (k :: queue) results
  = pushed push cache queue
      match Dict.get k cache with
      | Some state => fold_left (push_one push k state) [CLOUDFLARE; SALESFORCE] results
      | None => results
      end.
Proof. reflexivity. Qed.

Lemma pushed_grows cache queue results :
  let r := pushed push cache queue results in
  incl (synced results) (synced r)
  /\ incl (failed results) (failed r)
  /\ conflicts r = conflicts results
  /\ (length (synced r) + length (failed r)
      = 2 * length (cached_entries cache queue)
        + (length (synced results) + length (failed results)))%nat.
Proof.
  revert results. induction queue as [|k queue IH]; intros results.
  - simpl. repeat split; apply incl_refl.
  - rewrite pushed_cons, cached_entries_cons.
    destruct (Dict.get k cache) as [state|].
    + pose proof (push_both k state results) as (S1 & F1 & C1 & L1 & _).
      destruct (IH (fold_left (push_one push k state) [CLOUDFLARE; SALESFORCE] results))
        as (S2 & F2 & C2 & L2).
      cbv zeta in *. repeat split.
      * eapply incl_tran; eassumption.
      * eapply incl_tran; eassumption.
      * congruence.
      * cbn [length]. lia.
    + apply IH.
Qed.

Lemma pushed_recorded cache queue results k state src :
  In k queue -> Dict.get k cache = Some state ->
  src = CLOUDFLARE \/ src = SALESFORCE ->
  recorded push (pushed push cache queue results) k state src.
Proof.
  revert results. induction queue as [|k0 queue IH]; intros results Hin G Hsrc;
    [destruct Hin|].
  rewrite pushed_cons.
  destruct Hin as [->|Hin].
  - rewrite G.
    pose proof (push_both k state results) as (_ & _ & _ & _ & R1 & R2).
    pose proof (pushed_grows cache queue
                  (fold_left (push_one push k state) [CLOUDFLARE; SALESFORCE] results))
      as (S2 & F2 & _).
    cbv zeta in *.
    destruct Hsrc as [->| ->]; eapply recorded_mono; eassumption.
  - now apply IH.
Qed.

Lemma pushed_uncached cache queue results :
  (forall k, In k queue -> Dict.get k cache = None) ->
  pushed push cache queue results = results.
Proof.
  revert results. induction queue as [|k queue IH]; intros results Hq; [reflexivity|].
  rewrite pushed_cons, (Hq k) by now left.
  apply IH. intros k' Hk'. apply Hq. now right.
Qed.

(** X6: [sync_all] never raises, whatever the backend does.  It leaves the
    cache and the conflict log as they are; an entry is in the queue
    afterwards exactly when it was queued and has no cached record; and the
    ["conflicts"] list of its results is always empty. *)
Theorem sync_all_frame (m : StateManager) :
  exists results m',
    sync_all push m = Ok (results, m')
    /\ _local_cache m' = _local_cache m
    /\ _conflicts m' = _conflicts m
    /\ primary_source m' = primary_source m
    /\ (forall k, In k (_pending_syncs m')
                  <-> In k (_pending_syncs m) /\ Dict.get k (_local_cache m) = None)
    /\ conflicts results = [].
Proof.
  eexists. eexists. split; [apply sync_all_spec|].
  split; [reflexivity|]. split; [reflexivity|]. split; [reflexivity|]. split.
  - intros k. apply sync_all_queue; exact push.
  - now destruct (pushed_grows (_local_cache m) (_pending_syncs m)
                    (mkSyncResults [] [] [])) as (_ & _ & C & _).
Qed.

(** X7: every queue entry that has a cached record is pushed to both
    secondary sources, and each push leaves its own trace, whatever the
    outcome of the others: the tag [key@source] in ["synced"] when the push
    returns [True], in ["failed"] when it returns [False], and the tag
    followed by the message in ["failed"] when it raises.  The two lists
    together hold two entries for each such queue entry and nothing else. *)
Theorem sync_all_isolation (m : StateManager) :
  match sync_all push m with
  | Ok (results, _) =>
      (forall k state src,
          In k (_pending_syncs m) ->
          Dict.get k (_local_cache m) = Some state ->
          src = CLOUDFLARE \/ src = SALESFORCE ->
          recorded push results k state src)
      /\ (length (synced results) + length (failed results)
          = 2 * length (cached_entries (_local_cache m) (_pending_syncs m)))%nat
  | Raise _ => False
  end.
Proof.
  rewrite sync_all_spec. split.
  - intros k state src Hin G Hsrc. now apply pushed_recorded.
  - destruct (pushed_grows (_local_cache m) (_pending_syncs m) (mkSyncResults [] [] []))
      as (_ & _ & _ & L). simpl in L. lia.
Qed.

End Pushing.

(** X8: a second [sync_all] right after a first one attempts no push and
    changes nothing, whatever the backends do in either call. *)
Theorem sync_all_twice (push push' : SyncState -> SyncSource -> push_outcome)
    (m : StateManager) :
  match sync_all push m with
  | Ok (_, m') => sync_all push' m' = Ok (mkSyncResults [] [] [], m')
  | Raise _ => False
  end.
Proof.
  rewrite sync_all_spec, sync_all_spec. cbn [_local_cache with_pending _pending_syncs].
  assert (Hun : forall k, In k (unsynced (_local_cache m) (_pending_syncs m)) ->
                          Dict.get k (_local_cache m) = None).
  { intros k Hk. now apply (sync_all_queue push) in Hk. }
  rewrite (pushed_uncached push') by assumption.
  assert (Hidem : unsynced (_local_cache m) (unsynced (_local_cache m) (_pending_syncs m))
                  = unsynced (_local_cache m) (_pending_syncs m)).
  { unfold unsynced at 1. apply forallb_filter_id. apply forallb_forall.
    intros k Hk. apply Hun in Hk. unfold Dict.mem. now rewrite Hk. }
  rewrite Hidem. now destruct m.
Qed.

(** X9: with the push stub of the source, which always returns [True],
    nothing is ever reported as failed, and ["synced"] lists, in queue
    order, the two tags of every queue entry that has a cached record. *)
Theorem sync_all_with_stub (m : StateManager) :
  match sync_all _push_to_source m with
  | Ok (results, _) =>
      failed results = []
      /\ synced results
         = flat_map (fun k => [push_tag k CLOUDFLARE; push_tag k SALESFORCE])
             (cached_entries (_local_cache m) (_pending_syncs m))
  | Raise _ => False
  end.
Proof.
  rewrite sync_all_spec.
  assert (G : forall queue r,
    failed (pushed _push_to_source (_local_cache m) queue r) = failed r
    /\ synced (pushed _push_to_source (_local_cache m) queue r)
       = synced r ++ flat_map (fun k => [push_tag k CLOUDFLARE; push_tag k SALESFORCE])
                       (cached_entries (_local_cache m) queue)).
  { induction queue as [|k queue IH]; intros r.
    - simpl. now rewrite app_nil_r.
    - rewrite pushed_cons, cached_entries_cons.
      destruct (Dict.get k (_local_cache m)) as [state|].
      + destruct (IH (fold_left (push_one _push_to_source k state)
                        [CLOUDFLARE; SALESFORCE] r)) as [IHf IHs].
        rewrite IHf, IHs. simpl. split; [reflexivity|].
        now rewrite <- !app_assoc.
      + apply IH. }
  destruct (G (_pending_syncs m) (mkSyncResults [] [] [])) as [Gf Gs].
  now rewrite Gf, Gs.
Qed.

(** ** Detection and resolution together *)

Lemma list_set_length {A : Type} (i : nat) (x : A) (l : list A) :
  length (list_set i x l) = length l.
Proof.
  revert i. induction l as [|y l IH]; intros [|i]; simpl; try reflexivity.
  now rewrite IH.
Qed.

Lemma list_set_nth_same {A : Type} (i : nat) (x y : A) (l : list A) :
  nth_error l i = Some y -> nth_error (list_set i x l) i = Some x.
Proof.
  revert i. induction l as [|z l IH]; intros [|i]; simpl; try discriminate.
  - reflexivity.
  - apply IH.
Qed.

Lemma list_set_nth_other {A : Type} (i j : nat) (x : A) (l : list A) :
  j <> i -> nth_error (list_set i x l) j = nth_error l j.
Proof.
  revert i j. induction l as [|z l IH]; intros [|i] [|j] Hne; simpl; try reflexivity.
  - contradiction.
  - apply IH. congruence.
Qed.

Lemma list_set_nth_self {A : Type} (i : nat) (x : A) (l : list A) :
  nth_error l i = Some x -> list_set i x l = l.
Proof.
  revert i. induction l as [|z l IH]; intros [|i]; simpl; try discriminate.
  - now intros [= ->].
  - intros Hi. now rewrite IH.
Qed.

Section DetectResolve.
Variable fetch : string -> SyncSource -> option SyncState.

Lemma detected_length (m : StateManager) (item : string * SyncState) :
  (length (detected fetch m item) <= 1)%nat.
Proof.
  unfold detected. destruct item as [k local].
  destruct (fetch k (primary_source m)); [|simpl; lia].
  destruct (negb _); [|simpl; lia].
  destruct (_ >=? _); simpl; lia.
Qed.

(** A key of the cache is flagged exactly under the rule of
    [detect_conflicts]. *)
Lemma detect_flags (m : StateManager) (clock : nat -> float) (k : string)
    (local : SyncState) :
  Dict.wf (_local_cache m) ->
  Dict.get k (_local_cache m) = Some local ->
  (exists c, In c (fst (detect_conflicts fetch m clock)) /\ conflict_key c = k)
  <-> exists remote,
        fetch k (primary_source m) = Some remote
        /\ hash local <> hash remote
        /\ version local < version remote.
Proof.
  intros Hwf Hget. split.
  - intros (c & Hin & Hk). apply detect_found_In in Hin.
    destruct Hin as (k' & l' & remote & t & -> & Hitem & Hf & Hh & Hv).
    simpl in Hk. subst k'.
    apply (DictFacts.In_get _ _ _ Hwf) in Hitem.
    rewrite Hget in Hitem. injection Hitem as <-.
    now exists remote.
  - intros (remote & Hf & Hh & Hv).
    destruct (detect_found_pairing fetch m clock k local remote) as (i & _ & Hi);
      try assumption; [now apply DictFacts.get_In|].
    now exists (new_conflict k local remote (clock i)).
Qed.

(** X10: every conflict [detect_conflicts] returns is unresolved, without a
    resolution, and stamped with its own reading of the clock: conflict
    number [j] of the call carries reading number [j], so two conflicts of
    one call carry two readings.  It pairs a record of the cache with the
    record the primary source returns for its key, whose hash differs and
    whose version is strictly greater, and it is the entry the call leaves in
    the log at position [j] after the entries that were there.  There is at
    most one conflict per cached item. *)
Theorem detect_conflicts_results (m : StateManager) (clock : nat -> float) :
  let found := fst (detect_conflicts fetch m clock) in
  let m' := snd (detect_conflicts fetch m clock) in
  (forall j c, nth_error found j = Some c ->
     resolved c = false /\ resolution c = None /\ detected_at c = clock j
     /\ In (conflict_key c, local_state c) (_local_cache m)
     /\ fetch (conflict_key c) (primary_source m) = Some (remote_state c)
     /\ hash (local_state c) <> hash (remote_state c)
     /\ version (local_state c) < version (remote_state c)
     /\ nth_error (_conflicts m') (length (_conflicts m) + j) = Some c)
  /\ (length found <= length (_local_cache m))%nat.
Proof.
  cbv zeta. split.
  - intros j c Hj.
    assert (Hlog : nth_error (_conflicts (snd (detect_conflicts fetch m clock)))
                     (length (_conflicts m) + j) = Some c).
    { change (_conflicts (snd (detect_conflicts fetch m clock)))
        with (_conflicts m ++ fst (detect_conflicts fetch m clock)).
      rewrite nth_error_app2 by lia.
      replace (length (_conflicts m) + j - length (_conflicts m))%nat with j by lia.
      exact Hj. }
    rewrite detect_found, stamp_nth in Hj.
    destruct (nth_error (flat_map (detected fetch m) (_local_cache m)) j) as [p|] eqn:E;
      [|discriminate].
    injection Hj as <-. apply nth_error_In in E.
    apply in_flat_map in E. destruct E as ([k l] & Hitem & Hp).
    apply detected_spec in Hp. destruct Hp as (remote & Hf & Hh & Hv & ->).
    simpl in *. now repeat split.
  - rewrite detect_found, stamp_length.
    induction (_local_cache m) as [|item d IH]; simpl; [lia|].
    rewrite length_app. pose proof (detected_length m item). lia.
Qed.

Lemma detect_log (m : StateManager) (clock : nat -> float) :
  _conflicts (snd (detect_conflicts fetch m clock))
  = _conflicts m ++ fst (detect_conflicts fetch m clock).
Proof. reflexivity. Qed.

(** X11: [detect_conflicts] does not look at the log.  Calling it again
    returns the conflicts of the first call again (with the clock readings of
    the second call) and appends them once more, so the log then holds every
    conflict twice. *)
Theorem detect_conflicts_twice (m : StateManager) (clock clock2 : nat -> float) :
  let found := fst (detect_conflicts fetch m clock) in
  let m1 := snd (detect_conflicts fetch m clock) in
  let found2 := fst (detect_conflicts fetch m1 clock2) in
  let m2 := snd (detect_conflicts fetch m1 clock2) in
  found2 = fst (detect_conflicts fetch m clock2)
  /\ map (fun c => (conflict_key c, local_state c, remote_state c)) found2
     = map (fun c => (conflict_key c, local_state c, remote_state c)) found
  /\ _conflicts m2 = _conflicts m ++ found ++ found2
  /\ _local_cache m2 = _local_cache m.
Proof.
  cbv zeta.
  assert (E : fst (detect_conflicts fetch (snd (detect_conflicts fetch m clock)) clock2)
              = fst (detect_conflicts fetch m clock2)).
  { rewrite !detect_found. reflexivity. }
  split; [exact E|]. split; [|split].
  - rewrite E, !detect_found.
    change (fun c => (conflict_key c, local_state c, remote_state c)) with pairing_of.
    now rewrite !stamp_pairings.
  - rewrite (detect_log (snd (detect_conflicts fetch m clock)) clock2), detect_log.
    now rewrite <- app_assoc.
  - reflexivity.
Qed.

Section Resolve.
Context `{Hashlib}.

Lemma resolve_conflict_log m c r merged_value now :
  _conflicts (fst (fst (resolve_conflict m c r merged_value now))) = _conflicts m.
Proof.
  unfold resolve_conflict, install_winner. destruct r; simpl; try reflexivity.
  - now destruct (_ <? _)%float.
  - now destruct merged_value as [[|kv v]|].
Qed.

(** [resolve_logged] in terms of [resolve_conflict] on the entry. *)
Lemma resolve_logged_entry m i c r merged_value now :
  nth_error (_conflicts m) i = Some c ->
  resolve_logged m i r merged_value now
  = Some (with_conflicts (fst (fst (resolve_conflict m c r merged_value now)))
            (list_set i (snd (fst (resolve_conflict m c r merged_value now)))
               (_conflicts m)),
          snd (resolve_conflict m c r merged_value now)).
Proof.
  intros Hi. unfold resolve_logged. rewrite Hi.
  pose proof (resolve_conflict_log m c r merged_value now) as Hlog.
  destruct (resolve_conflict m c r merged_value now) as [[m1 c'] res].
  cbn [fst snd] in *. now rewrite Hlog.
Qed.

(** X12: when [resolve_conflict] succeeds, the conflict it was given is
    marked resolved with the value of the policy and is otherwise as it was;
    the winner is stored under the key of the conflict, so the next [get] of
    the key returns it without asking the backend; the key is appended to the
    pending queue, twice under [MERGE] (once by [put], once by the
    resolution); and under [SOURCE_PRIORITY] the winner is the remote record.
    When the conflict is an object of the log, as those [detect_conflicts]
    returns are, the log shows it: the entry at its position is now the
    resolved conflict, every other entry is as it was, and the cache, the
    queue and the winner are the same.  When [resolve_conflict] raises, the
    manager and its log are as before. *)
Theorem resolve_conflict_success (m : StateManager) (c : SyncConflict)
    (r : ConflictResolution) (merged_value : option (pydict json)) (now : float) :
  match resolve_conflict m c r merged_value now with
  | (m', c', Ok w) =>
      c' = mkSyncConflict (conflict_key c) (local_state c) (remote_state c)
             (detected_at c) true (Some (ConflictResolution_value r))
      /\ get fetch m' (conflict_key c) = (Some w, m')
      /\ _pending_syncs m'
         = _pending_syncs m
           ++ match r with
              | MERGE => [conflict_key c; conflict_key c]
              | _ => [conflict_key c]
              end
      /\ (r = SOURCE_PRIORITY -> w = remote_state c)
      /\ forall i,
           nth_error (_conflicts m) i = Some c ->
           exists m2,
             resolve_logged m i r merged_value now = Some (m2, Ok w)
             /\ nth_error (_conflicts m2) i = Some c'
             /\ (forall j, j <> i ->
                   nth_error (_conflicts m2) j = nth_error (_conflicts m) j)
             /\ length (_conflicts m2) = length (_conflicts m)
             /\ _local_cache m2 = _local_cache m'
             /\ _pending_syncs m2 = _pending_syncs m'
             /\ primary_source m2 = primary_source m'
  | (_, _, Raise e) =>
      forall i,
        nth_error (_conflicts m) i = Some c ->
        resolve_logged m i r merged_value now = Some (m, Raise e)
  end.
Proof.
  pose proof (resolve_logged_entry m) as Hlogged.
  assert (Hok : forall m' c' w,
            resolve_conflict m c r merged_value now = (m', c', Ok w) ->
            forall i,
              nth_error (_conflicts m) i = Some c ->
              exists m2,
                resolve_logged m i r merged_value now = Some (m2, Ok w)
                /\ nth_error (_conflicts m2) i = Some c'
                /\ (forall j, j <> i ->
                      nth_error (_conflicts m2) j = nth_error (_conflicts m) j)
                /\ length (_conflicts m2) = length (_conflicts m)
                /\ _local_cache m2 = _local_cache m'
                /\ _pending_syncs m2 = _pending_syncs m'
                /\ primary_source m2 = primary_source m').
  { intros m' c' w E i Hi.
    exists (with_conflicts m' (list_set i c' (_conflicts m))).
    rewrite (Hlogged i c r merged_value now Hi), E. cbn [fst snd].
    split; [reflexivity|]. cbn [_conflicts with_conflicts].
    split; [now apply (list_set_nth_same i c' c)|].
    split; [intros j Hj; now apply list_set_nth_other|].
    split; [apply list_set_length|]. now repeat split. }
  assert (Hraise : forall m' c' e,
            resolve_conflict m c r merged_value now = (m', c', Raise e) ->
            forall i,
              nth_error (_conflicts m) i = Some c ->
              resolve_logged m i r merged_value now = Some (m, Raise e)).
  { intros m' c' e E i Hi.
    rewrite (Hlogged i c r merged_value now Hi).
    assert (Hsame : m' = m /\ c' = c).
    { revert E. unfold resolve_conflict, install_winner. destruct r; simpl.
      - destruct (_ <? _)%float; discriminate.
      - discriminate.
      - now intros [= <- <- _].
      - destruct merged_value as [[|kv v]|]; simpl; try discriminate;
          now intros [= <- <- _]. }
    destruct Hsame as [-> ->]. rewrite E. cbn [fst snd].
    rewrite (list_set_nth_self i c (_conflicts m) Hi).
    now rewrite with_conflicts_same. }
  destruct (resolve_conflict m c r merged_value now) as [[m' c'] [w|e]] eqn:E;
    [|now apply (Hraise m' c')].
  split; [|split; [|split; [|split]]]; [| | | |now apply Hok].
  all: revert E; unfold resolve_conflict, install_winner, get; destruct r; simpl.
  all: try discriminate.
  all: try (destruct (_ <? _)%float).
  all: try (destruct merged_value as [[|kv v]|]; simpl; try discriminate).
  all: intros [= <- <- <-]; simpl; try rewrite DictFacts.get_set_same;
    try reflexivity; try discriminate.
  all: try (now rewrite <- app_assoc).
Qed.

(** X13: resolution and the next detection.  Take a conflict as
    [detect_conflicts] finds it: the cache holds its local record, the
    primary source returns its remote record, the hashes differ and the local
    version is below the remote one.  After resolving it with
    [SOURCE_PRIORITY] the next detection lists no conflict for the key.
    After resolving it with [LAST_WRITE_WINS] while the local timestamp is the
    later one, the cache is as before and the next detection lists the same
    conflict again, at one of its clock readings. *)
Theorem resolve_then_detect (m : StateManager) (c : SyncConflict)
    (merged_value : option (pydict json)) (now : float) (clock2 : nat -> float) :
  Dict.wf (_local_cache m) ->
  Dict.get (conflict_key c) (_local_cache m) = Some (local_state c) ->
  fetch (conflict_key c) (primary_source m) = Some (remote_state c) ->
  hash (local_state c) <> hash (remote_state c) ->
  version (local_state c) < version (remote_state c) ->
  (let m1 := fst (fst (resolve_conflict m c SOURCE_PRIORITY merged_value now)) in
   ~ exists c', In c' (fst (detect_conflicts fetch m1 clock2))
                /\ conflict_key c' = conflict_key c)
  /\ ((timestamp (remote_state c) <? timestamp (local_state c))%float = true ->
      let m1 := fst (fst (resolve_conflict m c LAST_WRITE_WINS merged_value now)) in
      _local_cache m1 = _local_cache m
      /\ exists i,
           In (new_conflict (conflict_key c) (local_state c) (remote_state c) (clock2 i))
              (fst (detect_conflicts fetch m1 clock2))).
Proof.
  intros Hwf Hget Hf Hh Hv. split.
  - cbv zeta.
    set (m1 := fst (fst (resolve_conflict m c SOURCE_PRIORITY merged_value now))).
    assert (Hc1 : _local_cache m1
                  = Dict.set (conflict_key c) (remote_state c) (_local_cache m))
      by reflexivity.
    assert (Hp1 : primary_source m1 = primary_source m) by reflexivity.
    intros Hflag.
    apply (detect_flags m1 clock2 (conflict_key c) (remote_state c)) in Hflag.
    + destruct Hflag as (remote & Hr & Hne & _).
      rewrite Hp1, Hf in Hr. injection Hr as <-. now apply Hne.
    + rewrite Hc1. now apply DictFacts.wf_set.
    + rewrite Hc1. apply DictFacts.get_set_same.
  - intros Hlate. cbv zeta.
    set (m1 := fst (fst (resolve_conflict m c LAST_WRITE_WINS merged_value now))).
    assert (Hc1 : _local_cache m1 = _local_cache m).
    { unfold m1, resolve_conflict, install_winner. rewrite Hlate. simpl.
      now apply DictFacts.set_same. }
    assert (Hp1 : primary_source m1 = primary_source m).
    { unfold m1, resolve_conflict, install_winner. now rewrite Hlate. }
    split; [exact Hc1|].
    destruct (detect_found_pairing fetch m1 clock2 (conflict_key c) (local_state c)
                (remote_state c)) as (i & _ & Hi); try assumption.
    + rewrite Hc1. now apply DictFacts.get_In.
    + now rewrite Hp1.
    + now exists i.
Qed.

End Resolve.
End DetectResolve.

(** The theorem on the second of the two equal conflicts of
    [logged_manager]: after the call the second entry of the log is resolved
    and the first is as it was. *)
Lemma resolve_conflict_success_witness :
  exists m2,
    resolve_logged (H := sample_hashlib) logged_manager 1 SOURCE_PRIORITY None 9%float
    = Some (m2, Ok (sample_remote "a" "h2" 2%float 2))
    /\ nth_error (_conflicts m2) 1
       = Some (mkSyncConflict "a" (sample_state "a" "h1" 1%float 1)
                 (sample_remote "a" "h2" 2%float 2) 5%float true
                 (Some "source_priority"%string))
    /\ nth_error (_conflicts m2) 0
       = Some (new_conflict "a" (sample_state "a" "h1" 1%float 1)
                 (sample_remote "a" "h2" 2%float 2) 5%float).
Proof.
  pose proof (resolve_conflict_success sample_fetch (H := sample_hashlib) logged_manager
                (new_conflict "a" (sample_state "a" "h1" 1%float 1)
                   (sample_remote "a" "h2" 2%float 2) 5%float)
                SOURCE_PRIORITY None 9%float) as P.
  cbv beta iota zeta delta [resolve_conflict install_winner] in P.
  destruct P as (_ & _ & _ & _ & P).
  destruct (P 1%nat eq_refl) as (m2 & E & Hi & Ho & _).
  exists m2. split; [exact E|]. split; [exact Hi|].
  rewrite (Ho 0%nat); [reflexivity | discriminate].
Defined.

Lemma resolve_then_detect_witness :
  exists i,
    In (new_conflict "a" (sample_state "a" "h1" 7%float 1)
          (sample_remote "a" "h2" 2%float 2) (sample_clock i))
       (fst (detect_conflicts sample_fetch
               (fst (fst (resolve_conflict (H := sample_hashlib)
                            (mkStateManager CLOUDFLARE LAST_WRITE_WINS
                               [("a", sample_state "a" "h1" 7%float 1)]%string [] [])
                            (new_conflict "a" (sample_state "a" "h1" 7%float 1)
                               (sample_remote "a" "h2" 2%float 2) 8%float)
                            LAST_WRITE_WINS None 8%float)))
               sample_clock)).
Proof.
  assert (Hwf : Dict.wf [("a", sample_state "a" "h1" 7%float 1)]%string).
  { unfold Dict.wf. simpl. constructor; [simpl; tauto | constructor]. }
  assert (Hh : hash (sample_state "a" "h1" 7%float 1)
               <> hash (sample_remote "a" "h2" 2%float 2)) by discriminate.
  assert (Hv : version (sample_state "a" "h1" 7%float 1)
               < version (sample_remote "a" "h2" 2%float 2)) by (simpl; lia).
  apply (resolve_then_detect sample_fetch (H := sample_hashlib)
           (mkStateManager CLOUDFLARE LAST_WRITE_WINS
              [("a", sample_state "a" "h1" 7%float 1)]%string [] [])
           (new_conflict "a" (sample_state "a" "h1" 7%float 1)
              (sample_remote "a" "h2" 2%float 2) 8%float)
           None 8%float sample_clock Hwf eq_refl eq_refl Hh Hv).
  reflexivity.
Defined.

(** ** Reading snapshots *)


Lemma load_saved (m m0 : StateManager) (saved_at : float) (clock : nat -> float) :
  load_local m0 clock (Some (save_local m saved_at))
  = (with_pending (with_cache m0 (store_all (_local_cache m) (_local_cache m0)))
       (_pending_syncs m),
     Ok (Z.of_nat (length (store_all (_local_cache m) (_local_cache m0))))).
Proof.
  unfold load_local, save_local, get_default.
  cbn [Dict.get String.eqb Ascii.eqb Bool.eqb].
  fold (saved_states (_local_cache m)).
  rewrite load_states_saved, as_str_list_map. reflexivity.
Qed.

Lemma get_store_all (items cache : pydict SyncState) (k : string) :
  Dict.wf items ->
  Dict.get k (store_all items cache)
  = match Dict.get k items with
    | Some s => Some s
    | None => Dict.get k cache
    end.
Proof.
  revert cache. induction items as [|[k0 v0] items IH]; intros cache Hwf; [reflexivity|].
  unfold store_all in *. cbn [fold_left fst snd].
  unfold Dict.wf, Dict.keys in Hwf. cbn [map fst] in Hwf.
  inversion Hwf as [|? ? Hnotin Hwf']; subst.
  rewrite IH by exact Hwf'. cbn [Dict.get].
  destruct (k0 =? k)%string eqn:E.
  - apply String.eqb_eq in E. subst k0.
    apply DictFacts.get_None_notin in Hnotin. rewrite Hnotin.
    apply DictFacts.get_set_same.
  - apply String.eqb_neq in E.
    destruct (Dict.get k items); [reflexivity|].
    now apply DictFacts.get_set_other.
Qed.

(** X15: [load_local] merges into the cache and replaces the queue.  Loading
    the snapshot of another manager keeps the records of the keys the
    snapshot does not have, takes the snapshot's record for every key it has,
    installs the snapshot's pending queue in place of the manager's own, leaves
    the conflict log, and returns the size of the merged cache. *)
Theorem load_local_merges (m other : StateManager) (saved_at : float)
    (clock : nat -> float) :
  Dict.wf (_local_cache other) ->
  let m1 := fst (load_local m clock (Some (save_local other saved_at))) in
  snd (load_local m clock (Some (save_local other saved_at)))
  = Ok (Z.of_nat (length (_local_cache m1)))
  /\ (forall k,
        Dict.get k (_local_cache m1)
        = match Dict.get k (_local_cache other) with
          | Some s => Some s
          | None => Dict.get k (_local_cache m)
          end)
  /\ _pending_syncs m1 = _pending_syncs other
  /\ _conflicts m1 = _conflicts m.
Proof.
  intros Hwf. cbv zeta. rewrite load_saved. simpl. repeat split.
  intros k. now apply get_store_all.
Qed.

Lemma load_local_merges_witness :
  _pending_syncs (fst (load_local ahead_manager sample_clock
                         (Some (save_local sample_manager 8%float))))
  = _pending_syncs sample_manager.
Proof.
  apply (load_local_merges ahead_manager sample_manager 8%float sample_clock
           sample_manager_wf).
Defined.

Lemma load_states_app (clock : nat -> float) (i : nat) (good : pydict SyncState)
    (rest : list (string * json)) (m : StateManager) :
  load_states clock i (saved_states good ++ rest) m
  = load_states clock (i + length good) rest
      (with_cache m (store_all good (_local_cache m))).
Proof.
  revert i m. induction good as [|[k v] good IH]; intros i m; simpl.
  - now rewrite with_cache_same, Nat.add_0_r.
  - rewrite from_dict_to_dict, IH. now rewrite Nat.add_succ_r.
Qed.

(** A [KeyError] or an enumeration [ValueError] of [from_dict] does not
    depend on the reading of the clock. *)
Lemma from_dict_raise_clock (now now' : float) (data : pydict json) (e : exn) :
  from_dict now data = Raise e ->
  raised_by_lookup e ->
  from_dict now' data = Raise e.
Proof.
  unfold from_dict, subscript, get_default.
  destruct (Dict.get "key" data) as [jk|]; [|trivial].
  destruct (Dict.get "value" data) as [jv|]; [|trivial].
  destruct (Dict.get "hash" data) as [jh|]; [|trivial].
  destruct (Dict.get "source" data) as [js|]; [|trivial].
  destruct (match js with JStr sv => SyncSource_of_value sv
                        | _ => Raise (EnumValueError js "SyncSource") end);
    [|trivial].
  intros E He. exfalso. revert E.
  destruct jk; cbn; try (intros [= <-]; exact He).
  destruct jv; cbn; try (intros [= <-]; exact He).
  destruct jh; cbn; try (intros [= <-]; exact He).
  destruct (Dict.get "timestamp" data) as [[]|]; cbn; try (intros [= <-]; exact He).
  all: destruct (Dict.get "version" data) as [[]|]; cbn; try (intros [= <-]; exact He).
  all: destruct (Dict.get "metadata" data) as [[]|]; cbn; try (intros [= <-]; exact He).
  all: discriminate.
Qed.

(** X16: a snapshot record on which [from_dict] raises a [KeyError] (the
    record lacks ["key"], ["value"], ["hash"] or ["source"]) or the
    [ValueError] of the enumeration lookup (its ["source"] is no source value)
    stops [load_local] with that exception: the records before it are in the
    cache by then, those after it are not read, and the pending queue is the
    one the manager had, not the one of the file. *)
Theorem load_local_partial (m : StateManager) (now : float) (clock : nat -> float)
    (data : pydict json) (good : pydict SyncState) (k : string) (bad : pydict json)
    (rest : list (string * json)) (e : exn) :
  get_default data "states" (JObj []) = JObj (saved_states good ++ (k, JObj bad) :: rest) ->
  from_dict now bad = Raise e ->
  raised_by_lookup e ->
  load_local m clock (Some (JObj data))
  = (with_cache m (store_all good (_local_cache m)), Raise e).
Proof.
  intros Hstates Hbad He. unfold load_local. rewrite Hstates, load_states_app.
  simpl. now rewrite (from_dict_raise_clock now _ bad e Hbad He).
Qed.

Lemma load_local_partial_witness :
  load_local sample_manager sample_clock (Some (JObj broken_snapshot))
  = (with_cache sample_manager
       (store_all [("b", sample_state "b" "h2" 1%float 1)]%string
          (_local_cache sample_manager)),
     Raise (KeyError "hash")).
Proof.
  apply (load_local_partial sample_manager 9%float sample_clock broken_snapshot
           [("b", sample_state "b" "h2" 1%float 1)]%string "c"
           [("key", JStr "c"); ("value", JObj [])]%string
           [("d", JObj (to_dict (sample_state "d" "h4" 1%float 1)))]%string
           (KeyError "hash")).
  - reflexivity.
  - reflexivity.
  - exact I.
Defined.

(** ** Kanban cards *)

Lemma get_dict_merge {V : Type} (a b : pydict V) (f : string) :
  Dict.wf b ->
  Dict.get f (dict_merge a b)
  = match Dict.get f b with
    | Some x => Some x
    | None => Dict.get f a
    end.
Proof.
  revert a. induction b as [|[k0 v0] b IH]; intros a Hwf; [reflexivity|].
  unfold dict_merge in *. cbn [fold_left fst snd].
  unfold Dict.wf, Dict.keys in Hwf. cbn [map fst] in Hwf.
  inversion Hwf as [|? ? Hnotin Hwf']; subst.
  rewrite IH by exact Hwf'. cbn [Dict.get].
  destruct (k0 =? f)%string eqn:E.
  - apply String.eqb_eq in E. subst k0.
    apply DictFacts.get_None_notin in Hnotin. rewrite Hnotin.
    apply DictFacts.get_set_same.
  - apply String.eqb_neq in E.
    destruct (Dict.get f b); [reflexivity|].
    now apply DictFacts.get_set_other.
Qed.

Lemma prefix_append (a b : string) : String.prefix a (a ++ b)%string = true.
Proof.
  induction a as [|c a IH]; simpl.
  - now destruct b.
  - destruct (ascii_dec c c); [assumption | contradiction].
Qed.

Lemma split_on_nonempty (sep : ascii) (s : string) : split_on sep s <> [].
Proof.
  destruct s as [|c s]; simpl; [discriminate|].
  destruct (Ascii.eqb c sep); [discriminate|].
  destruct (split_on sep s); discriminate.
Qed.

Lemma split_on_absent (sep : ascii) (s : string) :
  has_char sep s = false -> split_on sep s = [s].
Proof.
  induction s as [|c s IH]; simpl; [reflexivity|].
  destruct (Ascii.eqb c sep); simpl; [discriminate|].
  intros Hs. now rewrite IH.
Qed.

Lemma split_on_length (sep : ascii) (p q : string) :
  (2 <= length (split_on sep (p ++ String sep q)))%nat.
Proof.
  induction p as [|c p IH]; simpl.
  - rewrite Ascii.eqb_refl. simpl.
    pose proof (split_on_nonempty sep q). destruct (split_on sep q); [contradiction|].
    simpl. lia.
  - destruct (Ascii.eqb c sep); simpl; [lia|].
    destruct (split_on sep (p ++ String sep q)); simpl in *; lia.
Qed.

(** The last field of a split is the last field of what follows any
    separator. *)
Lemma split_on_last (sep : ascii) (p q d : string) :
  last (split_on sep (p ++ String sep q)) d = last (split_on sep q) d.
Proof.
  induction p as [|c p IH].
  - cbn [String.append split_on]. rewrite Ascii.eqb_refl.
    pose proof (split_on_nonempty sep q). now destruct (split_on sep q).
  - cbn [String.append split_on].
    pose proof (split_on_length sep p q) as Hlen.
    destruct (Ascii.eqb c sep).
    + destruct (split_on sep (p ++ String sep q)) as [|seg segs]; [simpl in Hlen; lia|].
      exact IH.
    + destruct (split_on sep (p ++ String sep q)) as [|seg [|seg' segs]];
        try (simpl in Hlen; lia).
      exact IH.
Qed.

Lemma list_step_app (status : option string) (cards : list (pydict json))
    (item : string * SyncState) :
  list_step status cards item = cards ++ listed status item.
Proof.
  unfold listed, list_step. destruct item as [k st].
  destruct (String.prefix "kanban:card:" k); [|now rewrite app_nil_r].
  destruct (match status with None => true | Some s => status_is (value st) s end);
    [reflexivity | now rewrite app_nil_r].
Qed.

Lemma list_fold (status : option string) (items : pydict SyncState)
    (cards : list (pydict json)) :
  fold_left (list_step status) items cards = cards ++ flat_map (listed status) items.
Proof.
  revert cards. induction items as [|item items IH]; intros cards;
    cbn [fold_left flat_map].
  - now rewrite app_nil_r.
  - now rewrite IH, list_step_app, <- app_assoc.
Qed.

Lemma listed_spec (status : option string) (k : string) (st : SyncState)
    (card : pydict json) :
  In card (listed status (k, st))
  <-> String.prefix "kanban:card:" k = true
      /\ (forall s, status = Some s -> Dict.get "status" (value st) = Some (JStr s))
      /\ card = card_of k st.
Proof.
  unfold listed, list_step.
  destruct (String.prefix "kanban:card:" k).
  - destruct status as [s|].
    + unfold status_is. destruct (Dict.get "status" (value st)) as [[]|] eqn:G;
        try (split; [intros [] | intros (_ & Hs & _); specialize (Hs s eq_refl); discriminate]).
      destruct (s0 =? s)%string eqn:E.
      * apply String.eqb_eq in E. subst. simpl. split.
        -- intros [<-|[]]. repeat split. now intros s' [= ->].
        -- intros (_ & _ & ->). now left.
      * apply String.eqb_neq in E. split; [intros []|].
        intros (_ & Hs & _). specialize (Hs s eq_refl). congruence.
    + simpl. split.
      * intros [<-|[]]. repeat split. discriminate.
      * intros (_ & _ & ->). now left.
  - split; [intros [] | intros (Hp & _); discriminate].
Qed.

(** X17: [list_kanban_cards] lists one card for each cached
    record whose key starts with ["kanban:card:"] and, when a status is
    given, whose value has that string under ["status"]; nothing else.  A
    card has the fields of the value, the hash of the record under
    ["_hash"] (over any ["_hash"] of the value), and under ["id"] the
    ["id"] of the value when it has one, else what follows the last colon
    of the key. *)
Theorem list_kanban_cards_spec (m : StateManager) (status : option string) :
  (forall card,
      In card (list_kanban_cards m status)
      <-> exists k st,
            In (k, st) (_local_cache m)
            /\ String.prefix "kanban:card:" k = true
            /\ (forall s, status = Some s -> Dict.get "status" (value st) = Some (JStr s))
            /\ card = card_of k st)
  /\ (forall k st,
        Dict.wf (value st) ->
        Dict.get "_hash" (card_of k st) = Some (JStr (hash st))
        /\ Dict.get "id" (card_of k st)
           = match Dict.get "id" (value st) with
             | Some x => Some x
             | None => Some (JStr (last (split_on ":" k) EmptyString))
             end
        /\ forall f, f <> "_hash"%string -> f <> "id"%string ->
                     Dict.get f (card_of k st) = Dict.get f (value st)).
Proof.
  split.
  - intros card. unfold list_kanban_cards. rewrite list_fold. simpl.
    rewrite in_flat_map. split.
    + intros ([k st] & Hin & Hc). apply listed_spec in Hc.
      destruct Hc as (Hp & Hs & ->). now exists k, st.
    + intros (k & st & Hin & Hp & Hs & ->). exists (k, st). split; [assumption|].
      now apply listed_spec.
  - intros k st Hwf. unfold card_of. split; [apply DictFacts.get_set_same|]. split.
    + rewrite DictFacts.get_set_other by discriminate.
      rewrite get_dict_merge by assumption.
      now destruct (Dict.get "id" (value st)).
    + intros f Hh Hi. rewrite DictFacts.get_set_other by congruence.
      rewrite get_dict_merge by assumption.
      destruct (Dict.get f (value st)); [reflexivity|].
      cbn [Dict.get]. destruct ("id" =? f)%string eqn:E; [|reflexivity].
      apply String.eqb_eq in E. congruence.
Qed.

(** X18: the id a listed card reports for a key made by [card_key].  When
    the card id has no colon it is the card id; when it has one, only what
    follows its last colon is reported. *)
Theorem card_key_reported_id (card_id : string) :
  (has_char ":" card_id = false ->
   last (split_on ":" (card_key card_id)) EmptyString = card_id)
  /\ (forall p q,
        card_id = (p ++ ":" ++ q)%string -> has_char ":" q = false ->
        last (split_on ":" (card_key card_id)) EmptyString = q).
Proof.
  split.
  - intros Hc. unfold card_key.
    change ("kanban:card:" ++ card_id)%string
      with ("kanban:card" ++ String ":" card_id)%string.
    rewrite split_on_last, split_on_absent by assumption. reflexivity.
  - intros p q -> Hq. unfold card_key.
    change ("kanban:card:" ++ (p ++ ":" ++ q))%string
      with ("kanban:card" ++ String ":" (p ++ String ":" q))%string.
    rewrite !split_on_last, split_on_absent by assumption. reflexivity.
Qed.

Lemma card_key_reported_id_witness :
  last (split_on ":" (card_key "123")) EmptyString = "123"%string
  /\ last (split_on ":" (card_key "team:7")) EmptyString = "7"%string.
Proof.
  split.
  - apply (card_key_reported_id "123"). reflexivity.
  - apply (card_key_reported_id "team:7") with (p := "team"%string); reflexivity.
Defined.

Section KanbanUpdates.
Context `{Hashlib}.
Variable fetch : string -> SyncSource -> option SyncState.

(** The record [update_kanban_card] stores, by the record known before. *)
Lemma update_kanban_card_state (m : StateManager) (card_id : string)
    (updates : pydict json) (now : float) :
  let state := fst (update_kanban_card fetch m card_id updates now) in
  let m1 := snd (update_kanban_card fetch m card_id updates now) in
  let old := known fetch m (card_key card_id) in
  key state = card_key card_id
  /\ value state
     = dict_merge (match old with Some o => value o | None => [] end) updates
  /\ version state = match old with Some o => version o + 1 | None => 1 end
  /\ hash state = hash_state (value state)
  /\ Dict.get (card_key card_id) (_local_cache m1) = Some state
  /\ _pending_syncs m1 = _pending_syncs m ++ [card_key card_id].
Proof.
  cbv zeta. unfold update_kanban_card, get_kanban_card, known, get.
  destruct (Dict.get (card_key card_id) (_local_cache m)) as [s|] eqn:G.
  - simpl. rewrite G, DictFacts.get_set_same. now repeat split.
  - destruct (fetch (card_key card_id) (primary_source m)) as [r|]; simpl.
    + rewrite !DictFacts.get_set_same. now repeat split.
    + rewrite G, DictFacts.get_set_same. now repeat split.
Qed.

(** X19: [update_kanban_card] merges the updates over the value the manager
    knows for the card (the cached one, else the one of the primary source,
    else nothing): a field of the updates takes its new content, every other
    field keeps the old one.  The version is one more than the known one (1
    for an unknown card), the hash is the hash of the merged value, the key
    is queued, and [get_kanban_card] returns the merged value afterwards
    without asking the backend. *)
Theorem update_kanban_card_merges (m : StateManager) (card_id : string)
    (updates : pydict json) (now : float) :
  Dict.wf updates ->
  let state := fst (update_kanban_card fetch m card_id updates now) in
  let m1 := snd (update_kanban_card fetch m card_id updates now) in
  let old := known fetch m (card_key card_id) in
  (forall f,
      Dict.get f (value state)
      = match Dict.get f updates with
        | Some x => Some x
        | None => match old with
                  | Some o => Dict.get f (value o)
                  | None => None
                  end
        end)
  /\ version state = match old with Some o => version o + 1 | None => 1 end
  /\ hash state = hash_state (value state)
  /\ _pending_syncs m1 = _pending_syncs m ++ [card_key card_id]
  /\ forall fetch', get_kanban_card fetch' m1 card_id = (Some (value state), m1).
Proof.
  intros Hwf.
  pose proof (update_kanban_card_state m card_id updates now)
    as (Hk & Hv & Hver & Hh & Hg & Hq).
  cbv zeta in *. split; [|split; [|split; [|split]]]; try assumption.
  - intros f. rewrite Hv, get_dict_merge by assumption.
    destruct (Dict.get f updates); [reflexivity|].
    now destruct (known fetch m (card_key card_id)).
  - intros fetch'. unfold get_kanban_card, get. now rewrite Hg.
Qed.

(** X20: after [move_kanban_card] the value of the card has the new status
    under ["status"] and the clock reading under ["status_changed_at"], its
    other fields are those known before, and [list_kanban_cards] lists the
    card both under the new status and without a status filter. *)
Theorem move_kanban_card_listed (m : StateManager) (card_id new_status : string)
    (changed_at now : float) :
  let state := fst (move_kanban_card fetch m card_id new_status changed_at now) in
  let m1 := snd (move_kanban_card fetch m card_id new_status changed_at now) in
  Dict.get "status" (value state) = Some (JStr new_status)
  /\ Dict.get "status_changed_at" (value state) = Some (JFloat changed_at)
  /\ (forall f, f <> "status"%string -> f <> "status_changed_at"%string ->
        Dict.get f (value state)
        = match known fetch m (card_key card_id) with
          | Some o => Dict.get f (value o)
          | None => None
          end)
  /\ In (card_of (card_key card_id) state) (list_kanban_cards m1 (Some new_status))
  /\ In (card_of (card_key card_id) state) (list_kanban_cards m1 None).
Proof.
  unfold move_kanban_card.
  set (updates := [("status", JStr new_status);
                   ("status_changed_at", JFloat changed_at)]%string).
  assert (Hwf : Dict.wf updates).
  { unfold Dict.wf. simpl. constructor; [|constructor; [|constructor]]; simpl.
    - intros [E|[]]. discriminate.
    - tauto. }
  pose proof (update_kanban_card_state m card_id updates now)
    as (Hk & Hv & Hver & Hh & Hg & Hq).
  cbv zeta in *.
  assert (Hf : forall f,
    Dict.get f (value (fst (update_kanban_card fetch m card_id updates now)))
    = match Dict.get f updates with
      | Some x => Some x
      | None => match known fetch m (card_key card_id) with
                | Some o => Dict.get f (value o)
                | None => None
                end
      end).
  { intros f. rewrite Hv, get_dict_merge by assumption.
    destruct (Dict.get f updates); [reflexivity|].
    now destruct (known fetch m (card_key card_id)). }
  assert (Hs : Dict.get "status"
                 (value (fst (update_kanban_card fetch m card_id updates now)))
               = Some (JStr new_status)) by (rewrite Hf; reflexivity).
  assert (Hlisted : forall status,
    (forall s, status = Some s -> s = new_status) ->
    In (card_of (card_key card_id)
          (fst (update_kanban_card fetch m card_id updates now)))
       (list_kanban_cards (snd (update_kanban_card fetch m card_id updates now)) status)).
  { intros status Hst. unfold list_kanban_cards. rewrite list_fold. simpl.
    apply in_flat_map.
    exists (card_key card_id, fst (update_kanban_card fetch m card_id updates now)).
    split; [now apply DictFacts.get_In|].
    apply listed_spec. split; [apply prefix_append|]. split; [|reflexivity].
    intros s Es. now rewrite (Hst s Es). }
  split; [exact Hs|]. split; [rewrite Hf; reflexivity|]. split; [|split].
  - intros f H1 H2. rewrite Hf. unfold updates. cbn [Dict.get].
    destruct ("status" =? f)%string eqn:E1; [apply String.eqb_eq in E1; congruence|].
    destruct ("status_changed_at" =? f)%string eqn:E2;
      [apply String.eqb_eq in E2; congruence|].
    reflexivity.
  - apply Hlisted. now intros s [= ->].
  - apply Hlisted. discriminate.
Qed.

End KanbanUpdates.

Lemma update_kanban_card_merges_witness :
  version (fst (update_kanban_card (H := sample_hashlib) sample_fetch sample_manager
                  "7" merged_sample 4%float)) = 1.
Proof.
  assert (Hwf : Dict.wf merged_sample).
  { unfold Dict.wf. simpl. constructor; [simpl; tauto | constructor]. }
  apply (update_kanban_card_merges (H := sample_hashlib) sample_fetch sample_manager
           "7" merged_sample 4%float Hwf).
Defined.

(* ------------------------------------------------------------------------- *)
(** * Properties of the hashing utilities *)

(** ** Content-addressable storage *)

(** X21: what [ContentAddressableStorage.put] stores is read back: [get] of
    the returned digest gives the data, [exists] is true for it, [verify]
    accepts the data under it, and the entries under other digests are as
    before.  Storing the same data again returns the same digest and changes
    nothing.  [verify] does not look at the store: any storage with the same
    hasher accepts the pair, stored or not. *)
Theorem cas_put_get `{Digests} (self : ContentAddressableStorage.t) (data : string)
    (now now2 : float) :
  let h := fst (ContentAddressableStorage.put self data now) in
  let self' := snd (ContentAddressableStorage.put self data now) in
  ContentAddressableStorage.get self' h = Some data
  /\ ContentAddressableStorage.exists_ self' h = true
  /\ ContentAddressableStorage.verify self' h data now2 = true
  /\ (forall h', h' <> h ->
        ContentAddressableStorage.get self' h' = ContentAddressableStorage.get self h')
  /\ ContentAddressableStorage.put self' data now2 = (h, self')
  /\ (forall other,
        ContentAddressableStorage.hasher other = ContentAddressableStorage.hasher self ->
        ContentAddressableStorage.verify other h data now2 = true).
Proof.
  cbv zeta.
  unfold ContentAddressableStorage.put, ContentAddressableStorage.get,
    ContentAddressableStorage.exists_, ContentAddressableStorage.verify, Dict.mem.
  simpl. rewrite DictFacts.get_set_same, String.eqb_refl.
  repeat split.
  - intros h' Hne. apply DictFacts.get_set_other. congruence.
  - rewrite (DictFacts.set_same _ _ _ (DictFacts.get_set_same _ _ _)). reflexivity.
  - intros other ->. apply String.eqb_refl.
Qed.

(** ** Webhook signatures *)

Lemma is_hex_ascii (s : string) : is_hex s = true -> is_ascii s = true.
Proof.
  induction s as [|c s IH]; simpl; [reflexivity|].
  intros Hs. apply andb_true_iff in Hs. destruct Hs as [Hc Hs].
  rewrite IH by assumption. rewrite andb_true_r.
  unfold is_hex_digit in Hc. simpl in Hc.
  repeat (apply orb_true_iff in Hc; destruct Hc as [Hc|Hc];
          [apply Ascii.eqb_eq in Hc; subst c; reflexivity|]).
  discriminate.
Qed.

Lemma is_hex_no_eq (s : string) : is_hex s = true -> after_first "=" s = None.
Proof.
  induction s as [|c s IH]; simpl; [reflexivity|].
  intros Hs. apply andb_true_iff in Hs. destruct Hs as [Hc Hs].
  rewrite IH by assumption.
  unfold is_hex_digit in Hc. simpl in Hc.
  repeat (apply orb_true_iff in Hc; destruct Hc as [Hc|Hc];
          [apply Ascii.eqb_eq in Hc; subst c; reflexivity|]).
  discriminate.
Qed.

Lemma after_first_label (p d : string) :
  has_char "=" p = false -> after_first "=" (p ++ "=" ++ d) = Some d.
Proof.
  induction p as [|c p IH]; simpl; [reflexivity|].
  destruct (Ascii.eqb c "="); simpl; [discriminate | exact IH].
Qed.

Lemma algorithm_value_no_eq (a : HashAlgorithm) :
  has_char "=" (HashAlgorithm_value a) = false.
Proof. now destruct a. Qed.

(** X22: a signature made by [create_webhook_signature], with or without the
    algorithm prefix, is accepted by [verify_webhook_signature] for the same
    payload, secret and algorithm, the digest being hexadecimal.  The label
    before the ["="] is not examined: the digest is accepted behind any label.
    A hexadecimal signature other than the expected digest is rejected. *)
Theorem webhook_round_trip `{Digests} (self : SHAHasher) (payload secret : string)
    (algo : HashAlgorithm) :
  is_hex (hmac_hexdigest secret payload algo) = true ->
  (forall include_prefix,
      verify_webhook_signature self payload
        (create_webhook_signature self payload secret algo include_prefix) secret algo
      = Ok true)
  /\ (forall label,
        has_char "=" label = false ->
        verify_webhook_signature self payload
          (label ++ "=" ++ hmac_hexdigest secret payload algo) secret algo
        = Ok true)
  /\ (forall signature,
        is_hex signature = true ->
        signature <> hmac_hexdigest secret payload algo ->
        verify_webhook_signature self payload signature secret algo = Ok false).
Proof.
  intros Hhex.
  assert (Hlabel : forall label,
    has_char "=" label = false ->
    verify_webhook_signature self payload
      (label ++ "=" ++ hmac_hexdigest secret payload algo) secret algo = Ok true).
  { intros label Hl. unfold verify_webhook_signature.
    rewrite after_first_label by assumption.
    unfold compare_digest. rewrite (is_hex_ascii _ Hhex). simpl.
    now rewrite String.eqb_refl. }
  split; [|split; [exact Hlabel|]].
  - intros [|]; unfold create_webhook_signature.
    + apply Hlabel, algorithm_value_no_eq.
    + unfold verify_webhook_signature. rewrite (is_hex_no_eq _ Hhex).
      unfold compare_digest. rewrite (is_hex_ascii _ Hhex). simpl.
      now rewrite String.eqb_refl.
  - intros signature Hs Hne. unfold verify_webhook_signature.
    rewrite (is_hex_no_eq _ Hs). unfold compare_digest.
    rewrite (is_hex_ascii _ Hhex), (is_hex_ascii _ Hs). simpl.
    destruct (_ =? _)%string eqn:E; [|reflexivity].
    apply String.eqb_eq in E. congruence.
Qed.

Lemma webhook_round_trip_witness :
  verify_webhook_signature (H := sample_digests) new_hasher "body"
    (create_webhook_signature (H := sample_digests) new_hasher "body" "secret" SHA256 true)
    "secret" SHA256
  = Ok true.
Proof.
  exact (proj1 (webhook_round_trip (H := sample_digests) new_hasher "body" "secret" SHA256
                  eq_refl) true).
Defined.

(** ** Comparing two states *)

(** X23: [StateHasher.detect_conflict] reports a conflict exactly when the
    two hashes differ.  With a non-empty base state, a reported conflict
    means that at least one side differs from the base, and two sides that
    both hash like the base are not in conflict; with no base state, or with
    the empty mapping as base, the result has no base entries. *)
Theorem detect_conflict_base `{Hashlib} (local_state remote_state : pydict json) :
  (forall base,
      Dict.get "has_conflict" (detect_conflict local_state remote_state base)
      = Some (JBool (negb (hash_state local_state =? hash_state remote_state)%string)))
  /\ (forall kv base,
        let r := detect_conflict local_state remote_state (Some (kv :: base)) in
        Dict.get "base_hash" r = Some (JStr (hash_state (kv :: base)))
        /\ (Dict.get "has_conflict" r = Some (JBool true) ->
            Dict.get "local_changed" r = Some (JBool true)
            \/ Dict.get "remote_changed" r = Some (JBool true))
        /\ (Dict.get "local_changed" r = Some (JBool false) ->
            Dict.get "remote_changed" r = Some (JBool false) ->
            Dict.get "has_conflict" r = Some (JBool false)))
  /\ (forall base,
        base = None \/ base = Some [] ->
        let r := detect_conflict local_state remote_state base in
        Dict.get "base_hash" r = None
        /\ Dict.get "local_changed" r = None
        /\ Dict.get "remote_changed" r = None).
Proof.
  split; [|split].
  - intros [[|kv base]|]; reflexivity.
  - intros kv base. cbv zeta. unfold detect_conflict. cbn.
    split; [reflexivity|].
    destruct (hash_state local_state =? hash_state (kv :: base))%string eqn:E1;
      destruct (hash_state remote_state =? hash_state (kv :: base))%string eqn:E2;
      destruct (hash_state local_state =? hash_state remote_state)%string eqn:E3;
      cbn;
      (split; [intros Hc; try discriminate Hc; auto
              | intros Hl Hr; try discriminate Hl; try discriminate Hr; auto]);
      apply String.eqb_eq in E1, E2; apply String.eqb_neq in E3; congruence.
  - intros base [-> | ->]; repeat split.
Qed.

(** ** The state hash *)

Lemma compare_le_trans (a b c : string) :
  String.compare a b <> Gt -> String.compare b c <> Gt -> String.compare a c <> Gt.
Proof.
  revert b c. induction a as [|x a IH]; intros [|y b] [|z c]; simpl; try congruence.
  unfold Ascii.compare.
  destruct (N.compare_spec (N_of_ascii x) (N_of_ascii y)) as [Exy|Lxy|Gxy];
    destruct (N.compare_spec (N_of_ascii y) (N_of_ascii z)) as [Eyz|Lyz|Gyz];
    destruct (N.compare_spec (N_of_ascii x) (N_of_ascii z)) as [Exz|Lxz|Gxz];
    try congruence; try lia; intros H1 H2; try (now apply (IH b c)); try discriminate.
Qed.

Lemma leb_trans (a b c : string) :
  String.leb a b = true -> String.leb b c = true -> String.leb a c = true.
Proof.
  unfold String.leb. intros H1 H2.
  pose proof (compare_le_trans a b c) as T.
  destruct (String.compare a b); destruct (String.compare b c);
    destruct (String.compare a c); try reflexivity; try discriminate;
    exfalso; apply T; congruence.
Qed.

(** Two insertions of items with different keys commute. *)
Lemma insert_item_comm (a b : string * json) (l : list (string * json)) :
  fst a <> fst b ->
  insert_item a (insert_item b l) = insert_item b (insert_item a l).
Proof.
  intros Hne. induction l as [|x l IH]; simpl.
  - destruct (String.leb (fst a) (fst b)) eqn:Eab;
      destruct (String.leb (fst b) (fst a)) eqn:Eba; try reflexivity.
    + exfalso. apply Hne. now apply String.leb_antisym.
    + destruct (String.leb_total (fst a) (fst b)); congruence.
  - destruct (String.leb (fst a) (fst x)) eqn:Eax;
      destruct (String.leb (fst b) (fst x)) eqn:Ebx; simpl;
      rewrite ?Eax, ?Ebx.
    + destruct (String.leb (fst a) (fst b)) eqn:Eab;
        destruct (String.leb (fst b) (fst a)) eqn:Eba; simpl;
        rewrite ?Eax, ?Ebx; try reflexivity.
      * exfalso. apply Hne. now apply String.leb_antisym.
      * destruct (String.leb_total (fst a) (fst b)); congruence.
    + destruct (String.leb (fst b) (fst a)) eqn:Eba; [|reflexivity].
      rewrite (leb_trans _ _ _ Eba Eax) in Ebx. discriminate.
    + destruct (String.leb (fst a) (fst b)) eqn:Eab; [|reflexivity].
      rewrite (leb_trans _ _ _ Eab Ebx) in Eax. discriminate.
    + now rewrite IH.
Qed.

Lemma sorted_items_perm (l l' : list (string * json)) :
  Permutation l l' -> NoDup (map fst l) -> sorted_items l = sorted_items l'.
Proof.
  unfold sorted_items. induction 1 as [|x l l' Hp IH|x y l|l l' l'' Hp1 IH1 Hp2 IH2];
    intros Hnd; simpl.
  - reflexivity.
  - inversion Hnd; subst. now rewrite IH.
  - apply insert_item_comm. simpl in Hnd. inversion Hnd as [|? ? Hnotin _]; subst.
    intros E. apply Hnotin. left. now symmetry.
  - rewrite IH1 by assumption. apply IH2.
    apply (Permutation_NoDup (l := map fst l)); [now apply Permutation_map | assumption].
Qed.

Lemma filter_insert_dropped (p : string * json -> bool) (x : string * json)
    (l : list (string * json)) :
  p x = false -> filter p (insert_item x l) = filter p l.
Proof.
  intros Hx. induction l as [|y l IH]; simpl.
  - now rewrite Hx.
  - destruct (String.leb (fst x) (fst y)); simpl.
    + now rewrite Hx.
    + now rewrite IH.
Qed.

Lemma clean_keys (state : pydict json) :
  map fst (map (fun kv : string * json => let '(k, v) := kv in (k, clean v)) state)
  = map fst state.
Proof.
  induction state as [|[k v] state IH]; simpl; [reflexivity | now rewrite IH].
Qed.

(** The canonical form of a mapping with one more item whose key is
    volatile. *)
Lemma normalize_volatile (l1 l2 : pydict json) (k : string) (v : json) :
  Dict.wf (l1 ++ (k, v) :: l2) ->
  is_volatile k = true ->
  _normalize_state (l1 ++ (k, v) :: l2) = _normalize_state (l1 ++ l2).
Proof.
  intros Hwf Hk. unfold _normalize_state. cbn [clean]. f_equal.
  set (f := fun kv : string * json => let '(k0, v0) := kv in (k0, clean v0)).
  rewrite !map_app. cbn [map].
  assert (Hperm : Permutation (map f l1 ++ f (k, v) :: map f l2)
                    (f (k, v) :: (map f l1 ++ map f l2)))
    by (symmetry; apply Permutation_middle).
  rewrite (sorted_items_perm _ _ Hperm).
  - unfold sorted_items. cbn [fold_right]. apply filter_insert_dropped.
    simpl. now rewrite Hk.
  - change (f (k, v) :: map f l2) with (map f ((k, v) :: l2)).
    rewrite <- map_app. unfold f. rewrite clean_keys. exact Hwf.
Qed.

Lemma dict_split {V : Type} (k : string) (v0 : V) (d : pydict V) :
  Dict.get k d = Some v0 ->
  exists l1 l2,
    d = l1 ++ (k, v0) :: l2
    /\ (forall v, Dict.set k v d = l1 ++ (k, v) :: l2)
    /\ Dict.del k d = l1 ++ l2.
Proof.
  induction d as [|[k' v'] d IH]; simpl; [discriminate|].
  destruct (k' =? k)%string eqn:E.
  - apply String.eqb_eq in E. subst k'. intros [= ->].
    exists [], d. now repeat split.
  - intros G. destruct (IH G) as (l1 & l2 & -> & Hs & Hd).
    exists ((k', v') :: l1), l2. repeat split.
    + intros v. simpl. now rewrite Hs.
    + simpl. now rewrite Hd.
Qed.

Section StateHash.
Context `{Hashlib}.

(** X24: the state hash does not depend on the order in which the fields of
    the state were inserted: two states with the same items in different
    orders have the same hash. *)
Theorem hash_state_order (state state' : pydict json) :
  Dict.wf state -> Permutation state state' -> hash_state state = hash_state state'.
Proof.
  intros Hwf Hp. unfold hash_state, _normalize_state. cbn [clean].
  rewrite (sorted_items_perm _
             (map (fun kv : string * json => let '(k, v) := kv in (k, clean v)) state')).
  - reflexivity.
  - now apply Permutation_map.
  - now rewrite clean_keys.
Qed.

(** X25: the state hash ignores the volatile fields ["updated_at"],
    ["last_modified"], ["etag"] and ["_metadata"] of the state: storing any
    content under one of them, or deleting it, leaves the hash as it is. *)
Theorem hash_state_volatile (state : pydict json) (k : string) (v : json) :
  Dict.wf state ->
  is_volatile k = true ->
  hash_state (Dict.set k v state) = hash_state state
  /\ hash_state (Dict.del k state) = hash_state state.
Proof.
  intros Hwf Hk. unfold hash_state.
  destruct (Dict.get k state) as [v0|] eqn:G.
  - destruct (dict_split k v0 state G) as (l1 & l2 & E & Hs & Hd).
    rewrite Hs, Hd. subst state.
    assert (Hwf' : Dict.wf (l1 ++ (k, v) :: l2)).
    { unfold Dict.wf, Dict.keys in *. rewrite map_app in *. exact Hwf. }
    rewrite (normalize_volatile l1 l2 k v Hwf' Hk).
    rewrite (normalize_volatile l1 l2 k v0 Hwf Hk). now split.
  - rewrite set_new by assumption.
    assert (Hd : Dict.del k state = state).
    { clear Hwf. induction state as [|[k' v'] state IH]; simpl in *; [reflexivity|].
      destruct (k' =? k)%string; [discriminate|]. now rewrite IH. }
    rewrite Hd. split; [|reflexivity].
    assert (Hwf' : Dict.wf (state ++ (k, v) :: [])).
    { unfold Dict.wf, Dict.keys in *. rewrite map_app. simpl.
      apply NoDup_app; [assumption | repeat constructor; simpl; tauto |].
      intros x Hx [<-|[]]. now apply DictFacts.get_None_notin in G. }
    rewrite (normalize_volatile state [] k v Hwf' Hk). now rewrite app_nil_r.
Qed.

End StateHash.

Lemma hash_state_order_witness :
  hash_state (H := sample_hashlib) [("a", JInt 1); ("b", JInt 2)]%string
  = hash_state (H := sample_hashlib) [("b", JInt 2); ("a", JInt 1)]%string.
Proof.
  apply (hash_state_order (H := sample_hashlib)).
  - unfold Dict.wf. simpl. constructor; [|constructor; [|constructor]]; simpl.
    + intros [E|[]]. discriminate.
    + tauto.
  - apply perm_swap.
Defined.

Lemma hash_state_volatile_witness :
  hash_state (H := sample_hashlib) (Dict.set "etag" (JStr "x") sample_value)
  = hash_state (H := sample_hashlib) sample_value.
Proof.
  apply (hash_state_volatile (H := sample_hashlib) sample_value "etag" (JStr "x")).
  - unfold Dict.wf. simpl. constructor; [simpl; tauto | constructor].
  - reflexivity.
Defined.

(** *** Normalisation at every depth *)

(** Induction over JSON values, through their lists and mappings. *)
Lemma json_induction (P : json -> Prop) :
  P JNull ->
  (forall b, P (JBool b)) ->
  (forall n, P (JInt n)) ->
  (forall x, P (JFloat x)) ->
  (forall s, P (JStr s)) ->
  (forall elems, Forall P elems -> P (JList elems)) ->
  (forall fields, Forall (fun kv => P (snd kv)) fields -> P (JObj fields)) ->
  forall j, P j.
Proof.
  intros Hnull Hbool Hint Hfloat Hstr Hlist Hobj.
  fix IH 1.
  intros [|b|n|x|s|elems|fields];
    [exact Hnull | apply Hbool | apply Hint | apply Hfloat | apply Hstr | |].
  - apply Hlist. induction elems as [|e elems IHl]; constructor; [apply IH | exact IHl].
  - apply Hobj. induction fields as [|[k v] fields IHl]; constructor;
      [apply IH | exact IHl].
Qed.

Lemma insert_item_In (x y : string * json) (l : list (string * json)) :
  In y (insert_item x l) <-> y = x \/ In y l.
Proof.
  induction l as [|z l IH]; simpl.
  - intuition.
  - destruct (String.leb (fst x) (fst z)); simpl; [intuition|].
    rewrite IH. intuition.
Qed.

Lemma sorted_items_In (y : string * json) (l : list (string * json)) :
  In y (sorted_items l) <-> In y l.
Proof.
  unfold sorted_items. induction l as [|x l IH]; simpl; [tauto|].
  rewrite insert_item_In, IH. intuition.
Qed.

Lemma insert_item_sorted (x : string * json) (l : list (string * json)) :
  keys_sorted l -> keys_sorted (insert_item x l).
Proof.
  induction 1 as [|y l Hy Hl IH]; simpl.
  - repeat constructor.
  - destruct (String.leb (fst x) (fst y)) eqn:E.
    + constructor; [|now constructor].
      constructor; [assumption|].
      rewrite Forall_forall in *. intros z Hz. eapply leb_trans; [exact E | now apply Hy].
    + constructor; [|assumption].
      rewrite Forall_forall in *. intros z Hz. apply insert_item_In in Hz.
      destruct Hz as [->|Hz]; [|now apply Hy].
      destruct (String.leb_total (fst x) (fst y)); congruence.
Qed.

Lemma sorted_items_sorted (l : list (string * json)) : keys_sorted (sorted_items l).
Proof.
  unfold sorted_items. induction l as [|x l IH]; simpl; [constructor|].
  now apply insert_item_sorted.
Qed.

Lemma filter_sorted (p : string * json -> bool) (l : list (string * json)) :
  keys_sorted l -> keys_sorted (filter p l).
Proof.
  induction 1 as [|x l Hx Hl IH]; simpl; [constructor|].
  destruct (p x); [|assumption]. constructor; [|assumption].
  rewrite Forall_forall in *. intros y Hy. apply filter_In in Hy. now apply Hx.
Qed.

Lemma map_sorted (f : json -> json) (l : list (string * json)) :
  keys_sorted l ->
  keys_sorted (map (fun kv : string * json => let '(k, v) := kv in (k, f v)) l).
Proof.
  induction 1 as [|[k v] l Hx Hl IH]; simpl; [constructor|].
  constructor; [|assumption].
  rewrite Forall_forall in *. intros y Hy. apply in_map_iff in Hy.
  destruct Hy as ([k' v'] & <- & Hin). exact (Hx _ Hin).
Qed.

(** Sorting items whose keys are in order changes nothing. *)
Lemma sorted_items_id (l : list (string * json)) : keys_sorted l -> sorted_items l = l.
Proof.
  unfold sorted_items. induction 1 as [|x l Hx Hl IH]; simpl; [reflexivity|].
  rewrite IH. destruct l as [|y l]; [reflexivity|]. simpl.
  inversion Hx as [|? ? Hy _]; subst. now rewrite Hy.
Qed.

(** X26: the normal form [clean] builds has no volatile key in any mapping,
    at any depth, also inside lists. *)
Theorem clean_no_volatile (j : json) : no_volatile (clean j) = true.
Proof.
  induction j as [| | | | |elems IH|fields IH] using json_induction; try reflexivity.
  - cbn [clean no_volatile]. apply forallb_forall. intros x Hx.
    apply in_map_iff in Hx. destruct Hx as (e & <- & He).
    rewrite Forall_forall in IH. now apply IH.
  - cbn [clean no_volatile]. apply forallb_forall. intros [k v] Hx.
    apply filter_In in Hx. destruct Hx as [Hx Hk]. simpl in Hk.
    apply sorted_items_In, in_map_iff in Hx. destruct Hx as ([k' v'] & [= <- <-] & Hin).
    rewrite Hk. simpl. rewrite Forall_forall in IH. exact (IH _ Hin).
Qed.

(** X27: normalising twice is the same as normalising once; hence a state
    that is already in normal form hashes like the state it came from. *)
Theorem clean_idempotent `{Hashlib} (j : json) :
  clean (clean j) = clean j
  /\ forall state normal,
       clean (JObj state) = JObj normal -> hash_state normal = hash_state state.
Proof.
  assert (Hidem : forall j', clean (clean j') = clean j').
  { clear j. intros j.
    induction j as [| | | | |elems IH|fields IH] using json_induction; try reflexivity.
    - cbn [clean]. f_equal. rewrite map_map. apply map_ext_in.
      rewrite Forall_forall in IH. exact IH.
    - cbn [clean]. f_equal.
      set (f := fun kv : string * json => let '(k, v) := kv in (k, clean v)).
      set (p := fun kv : string * json => negb (is_volatile (fst kv))).
      assert (Hfix : map f (filter p (sorted_items (map f fields)))
                     = filter p (sorted_items (map f fields))).
      { rewrite <- (map_id (filter p (sorted_items (map f fields)))) at 2.
        apply map_ext_in. intros [k v] Hx.
        apply filter_In in Hx. destruct Hx as [Hx _].
        apply sorted_items_In, in_map_iff in Hx.
        destruct Hx as ([k' v'] & E & Hin). unfold f in E. injection E as <- <-.
        unfold f. f_equal. rewrite Forall_forall in IH. exact (IH _ Hin). }
      rewrite Hfix.
      rewrite sorted_items_id by apply filter_sorted, sorted_items_sorted.
      clear. induction (sorted_items (map f fields)) as [|x l IHl]; simpl; [reflexivity|].
      destruct (p x) eqn:E; simpl; [rewrite E|]; now rewrite IHl. }
  split; [apply Hidem|].
  intros state normal E. unfold hash_state, _normalize_state.
  now rewrite <- E, Hidem.
Qed.

(** ** Writing, then pushing *)

(** X28: [put] followed by [sync_all] pushes the record just stored to both
    secondary sources (each push leaving its trace whatever the outcome), and
    afterwards the key is no longer queued, however often it was queued
    before. *)
Theorem put_then_sync_all `{Hashlib}
    (push : SyncState -> SyncSource -> push_outcome)
    (m : StateManager) (k : string) (v : pydict json) (src : option SyncSource)
    (now : float) :
  let state := fst (put m k v src now) in
  match sync_all push (snd (put m k v src now)) with
  | Ok (results, m') =>
      recorded push results k state CLOUDFLARE
      /\ recorded push results k state SALESFORCE
      /\ ~ In k (_pending_syncs m')
      /\ Dict.get k (_local_cache m') = Some state
  | Raise _ => False
  end.
Proof.
  cbv zeta. rewrite sync_all_spec.
  assert (G : Dict.get k (_local_cache (snd (put m k v src now)))
              = Some (fst (put m k v src now))).
  { simpl. apply DictFacts.get_set_same. }
  assert (Hin : In k (_pending_syncs (snd (put m k v src now)))).
  { simpl. apply in_or_app. right. now left. }
  split; [|split; [|split]].
  - apply pushed_recorded; auto.
  - apply pushed_recorded; auto.
  - intros Hq. apply (sync_all_queue push) in Hq. destruct Hq as [_ Hq].
    rewrite G in Hq. discriminate.
  - exact G.
Qed.
